(** * PivotPanic: the stepwise quicksort engine of "You vs QuickSort"

    A shallow embedding of [PivotPanic.py]: the Lomuto quicksort step
    generator [quicksort_steps], the pacing controller [update_algo], the
    player's two-click swap protocol [_handle_click], the finish check of the
    main loop and the verdict computed in [draw].

    Modelling conventions.
    - Python [int] is [Z]; a Python [list] of ints is [list Z].  Subscripting
      follows Python: a negative index counts from the end, an index outside
      [-len, len) raises [IndexError].
    - A generator body is a computation in the monad [Gen]: it threads the
      private working array [arr], collects the yielded [Step]s in order and
      may fail.  The live generator object held by the game is the list of
      Steps it has not produced yet; [next] pops its head.
    - Python [float] is the kernel's binary64 [float] with its IEEE
      operations.  [time.perf_counter()] reads an arbitrary clock
      [perf_counter_at] indexed by the number of reads so far.
    - Pixel geometry is outside the engine: a click is given by what the hit
      test computed ([None]: outside the panel, [Some k]: the raw bar index
      before clamping). *)

From Stdlib Require Import ZArith Lia Floats.
From stdpp Require Import base tactics option list strings sorting gmap.

Local Open Scope Z_scope.

(** ** Outcomes and the generator monad *)

Inductive outcome (A : Type) : Type :=
| Ok (a : A)
| IndexError
| OutOfFuel.
Arguments Ok {A} a.
Arguments IndexError {A}.
Arguments OutOfFuel {A}.

(** [@dataclass class Step] *)
Record Step : Type := mkStep {
  array : list Z;
  i : option Z;
  j : option Z;
  pivot_index : option Z;
  action : string;
}.

(** A generator body: from the working array to a result, the new working
    array and the Steps yielded on the way. *)
Definition Gen (A : Type) : Type := list Z → outcome (A * list Z * list Step).

Definition gret {A} (a : A) : Gen A := λ arr, Ok (a, arr, []).

Definition gbind {A B} (m : Gen A) (f : A → Gen B) : Gen B := λ arr,
  match m arr with
  | Ok (a, arr1, s1) =>
      match f a arr1 with
      | Ok (b, arr2, s2) => Ok (b, arr2, s1 ++ s2)
      | IndexError => IndexError
      | OutOfFuel => OutOfFuel
      end
  | IndexError => IndexError
  | OutOfFuel => OutOfFuel
  end.

Notation "x ←' m ; k" := (gbind m (λ x, k))
  (at level 20, m at level 100, k at level 200, right associativity,
   format "x  ←'  m ;  '/' k").
Notation "m ;;' k" := (gbind m (λ _, k))
  (at level 100, k at level 200, right associativity).

(** [yield s] *)
Definition yield (s : Step) : Gen unit := λ arr, Ok (tt, arr, [s]).

(** [arr[:]] *)
Definition copy : Gen (list Z) := λ arr, Ok (arr, arr, []).

Definition raise_fuel {A} : Gen A := λ _, OutOfFuel.

(** Python subscript resolution on a list of length [n]. *)
Definition py_index (n : nat) (k : Z) : option nat :=
  if (0 <=? k) && (k <? Z.of_nat n) then Some (Z.to_nat k)
  else if (- Z.of_nat n <=? k) && (k <? 0) then Some (Z.to_nat (k + Z.of_nat n))
  else None.

Definition list_getitem (l : list Z) (k : Z) : option Z :=
  p ← py_index (length l) k; l !! p.

Definition list_setitem (l : list Z) (k : Z) (v : Z) : option (list Z) :=
  p ← py_index (length l) k; Some (<[p:=v]> l).

(** [arr[k]] *)
Definition getitem (k : Z) : Gen Z := λ arr,
  match list_getitem arr k with
  | Some v => Ok (v, arr, [])
  | None => IndexError
  end.

(** [arr[k] = v] *)
Definition setitem (k : Z) (v : Z) : Gen unit := λ arr,
  match list_setitem arr k v with
  | Some arr' => Ok (tt, arr', [])
  | None => IndexError
  end.

(** [arr[a], arr[b] = arr[b], arr[a]]: the right-hand side is evaluated
    first, then the targets are assigned left to right. *)
Definition swap_items (a b : Z) : Gen unit :=
  x ←' getitem b;
  y ←' getitem a;
  setitem a x;;'
  setitem b y.

(** [range(lo, hi)] *)
Definition range (lo hi : Z) : list Z :=
  (λ k, lo + Z.of_nat k) <$> seq 0 (Z.to_nat (hi - lo)).

(** [for j in js: s = body(j, s)] *)
Fixpoint for_each {S : Type} (js : list Z) (body : Z → S → Gen S) (s : S) : Gen S :=
  match js with
  | [] => gret s
  | j :: js' => s' ←' body j s; for_each js' body s'
  end.

(** ** The QuickSort step generator *)

(** One iteration of the scan loop of [_partition]; the loop-carried
    variable is the Lomuto boundary [i]. *)
Definition partition_body (pivot hi : Z) (j : Z) (i : Z) : Gen Z :=
  a ←' copy;
  yield (mkStep a (Some i) (Some j) (Some hi) "compare");;'
  x ←' getitem j;
  if x <=? pivot then
    let i := i + 1 in
    if negb (i =? j) then
      swap_items i j;;'
      a ←' copy;
      yield (mkStep a (Some i) (Some j) (Some hi) "swap");;'
      gret i
    else gret i
  else gret i.

Definition _partition (lo hi : Z) : Gen Z :=
  pivot ←' getitem hi;
  let i := lo - 1 in
  a ←' copy;
  yield (mkStep a None None (Some hi) "pivot");;'
  i ←' for_each (range lo hi) (partition_body pivot hi) i;
  if negb (i + 1 =? hi) then
    swap_items (i + 1) hi;;'
    a ←' copy;
    yield (mkStep a (Some (i + 1)) (Some hi) (Some hi) "partition");;'
    gret (i + 1)
  else gret (i + 1).

(** The recursion of [_quicksort] is on sub-ranges, not structural: [fuel]
    bounds its depth. *)
Fixpoint _quicksort (fuel : nat) (lo hi : Z) : Gen unit :=
  if lo <? hi then
    match fuel with
    | O => raise_fuel
    | S fuel' =>
        p ←' _partition lo hi;
        _quicksort fuel' lo (p - 1);;'
        _quicksort fuel' (p + 1) hi
    end
  else gret tt.

Definition quicksort_body (n : nat) : Gen unit :=
  (if decide (n = 0%nat) then gret tt
   else _quicksort n 0 (Z.of_nat n - 1));;'
  a ←' copy;
  yield (mkStep a None None None "done").

(** [quicksort_steps data]: the whole sequence of Steps the generator
    produces, in order.  The working copy is [data[:]]; the range handed to
    [_quicksort] has [len(arr)] elements, which is also enough fuel. *)
Definition quicksort_steps (data : list Z) : outcome (list Step) :=
  match quicksort_body (length data) data with
  | Ok (_, _, steps) => Ok steps
  | IndexError => IndexError
  | OutOfFuel => OutOfFuel
  end.

(** ** Shape of the Steps of a partition pass *)

(** The Steps that partition passes over sub-ranges of [lo..hi] may yield:
    the pivot index [p] lies in the range, the scan index is left of [p], and
    the boundary index is left of the scan index; in a "compare" Step the
    boundary may still be [lo - 1], one position before the range. *)
Inductive inner_step (lo hi : Z) : Step → Prop :=
| inner_pivot arr p :
    lo <= p → p <= hi →
    inner_step lo hi (mkStep arr None None (Some p) "pivot")
| inner_compare arr a b p :
    lo - 1 <= a → a < b → b < p → p <= hi →
    inner_step lo hi (mkStep arr (Some a) (Some b) (Some p) "compare")
| inner_swap arr a b p :
    lo <= a → a < b → b < p → p <= hi →
    inner_step lo hi (mkStep arr (Some a) (Some b) (Some p) "swap")
| inner_partition arr a p :
    lo <= a → a < p → p <= hi →
    inner_step lo hi (mkStep arr (Some a) (Some p) (Some p) "partition").

(** ** Race state *)

(** [o is None] and [o is not None] *)
Definition is_None {A : Type} (o : option A) : bool :=
  match o with
  | None => true
  | Some _ => false
  end.
Definition is_not_None {A : Type} (o : option A) : bool := negb (is_None o).

(** [is_sorted(arr)]: every adjacent pair is in order. *)
Definition is_sorted (l : list Z) : bool :=
  forallb
    (λ k, match l !! k, l !! S k with
          | Some a, Some b => a <=? b
          | _, _ => false
          end)
    (seq 0 (length l - 1)).

(** [@dataclass class SideState] *)
Record SideState : Type := mkSide {
  arr : list Z;
  start_time : float;
  finish_time : option float;
  moves : Z;
  selected : option Z;
}.

(** The fields of [YouVsQuickSort] that the engine reads and writes, and the
    process clock: [perf_counter_at n] is what the [n]-th call of
    [time.perf_counter()] returns, [clock_reads] counts the calls made. *)
Record Game : Type := mkGame {
  player : SideState;
  algo : SideState;
  _gen : list Step;
  _current_step : option Step;
  _algo_step_timer : float;
  _last_step_time : float;
  paused_algo : bool;
  perf_counter_at : nat → float;
  clock_reads : nat;
}.

Definition with_arr (a : list Z) (s : SideState) : SideState :=
  mkSide a (start_time s) (finish_time s) (moves s) (selected s).
Definition with_finish_time (t : option float) (s : SideState) : SideState :=
  mkSide (arr s) (start_time s) t (moves s) (selected s).
Definition with_moves (m : Z) (s : SideState) : SideState :=
  mkSide (arr s) (start_time s) (finish_time s) m (selected s).
Definition with_selected (o : option Z) (s : SideState) : SideState :=
  mkSide (arr s) (start_time s) (finish_time s) (moves s) o.

Definition with_player (s : SideState) (g : Game) : Game :=
  mkGame s (algo g) (_gen g) (_current_step g) (_algo_step_timer g)
    (_last_step_time g) (paused_algo g) (perf_counter_at g) (clock_reads g).
Definition with_algo (s : SideState) (g : Game) : Game :=
  mkGame (player g) s (_gen g) (_current_step g) (_algo_step_timer g)
    (_last_step_time g) (paused_algo g) (perf_counter_at g) (clock_reads g).
Definition with_gen (ss : list Step) (g : Game) : Game :=
  mkGame (player g) (algo g) ss (_current_step g) (_algo_step_timer g)
    (_last_step_time g) (paused_algo g) (perf_counter_at g) (clock_reads g).
Definition with_current_step (o : option Step) (g : Game) : Game :=
  mkGame (player g) (algo g) (_gen g) o (_algo_step_timer g)
    (_last_step_time g) (paused_algo g) (perf_counter_at g) (clock_reads g).
Definition with_algo_step_timer (t : float) (g : Game) : Game :=
  mkGame (player g) (algo g) (_gen g) (_current_step g) t
    (_last_step_time g) (paused_algo g) (perf_counter_at g) (clock_reads g).
Definition with_last_step_time (t : float) (g : Game) : Game :=
  mkGame (player g) (algo g) (_gen g) (_current_step g) (_algo_step_timer g)
    t (paused_algo g) (perf_counter_at g) (clock_reads g).
Definition with_paused_algo (b : bool) (g : Game) : Game :=
  mkGame (player g) (algo g) (_gen g) (_current_step g) (_algo_step_timer g)
    (_last_step_time g) b (perf_counter_at g) (clock_reads g).

(** [time.perf_counter()] *)
Definition perf_counter (g : Game) : float * Game :=
  (perf_counter_at g (clock_reads g),
   mkGame (player g) (algo g) (_gen g) (_current_step g) (_algo_step_timer g)
     (_last_step_time g) (paused_algo g) (perf_counter_at g) (S (clock_reads g))).

(** The generator object made by [quicksort_steps(data)], as the Steps it
    will produce.  [quicksort_steps] never fails ([quicksort_steps_spec]), so
    the second branch is never taken. *)
Definition generator (data : list Z) : list Step :=
  match quicksort_steps data with
  | Ok steps => steps
  | _ => []
  end.

(** [reset]: [base] is the shuffled array [new_array(self.size)] returned;
    both sides get their own copy of it. *)
Definition reset (base : list Z) (g : Game) : Game :=
  let '(t1, g) := perf_counter g in
  let g := with_player (mkSide base t1 None 0 None) g in
  let '(t2, g) := perf_counter g in
  let g := with_algo (mkSide base t2 None 0 None) g in
  let g := with_gen (generator (arr (algo g))) g in
  let g := with_current_step None g in
  let g := with_algo_step_timer 0%float g in
  let g := with_last_step_time 0%float g in
  with_paused_algo false g.

(** The clamping part of [_index_at_pos].  [hit] is what the pixel
    arithmetic produced: [None] when the position is outside the bar area,
    [Some k] for the raw column [int(rel_x // w)]. *)
Definition _index_at_pos (hit : option Z) (a : list Z) : option Z :=
  match hit with
  | None => None
  | Some k =>
      let n := Z.of_nat (length a) in
      if n =? 0 then None else Some (Z.max 0 (Z.min (n - 1) k))
  end.

(** [self.player.finish_time = time.perf_counter()] *)
Definition stamp_player (g : Game) : Game :=
  let '(t, g) := perf_counter g in
  with_player (with_finish_time (Some t) (player g)) g.

(** [self.algo.finish_time = time.perf_counter()] *)
Definition stamp_algo (g : Game) : Game :=
  let '(t, g) := perf_counter g in
  with_algo (with_finish_time (Some t) (algo g)) g.

(** [_handle_click]: the two-click swap protocol.  A subscript out of range
    would raise [IndexError]. *)
Definition _handle_click (hit : option Z) (g : Game) : outcome Game :=
  match _index_at_pos hit (arr (player g)) with
  | None => Ok g
  | Some idx =>
      if is_not_None (finish_time (player g)) then Ok g
      else
        match selected (player g) with
        | None => Ok (with_player (with_selected (Some idx) (player g)) g)
        | Some sel =>
            if negb (idx =? sel) then
              match swap_items sel idx (arr (player g)) with
              | Ok (_, a, _) =>
                  let g := with_player (with_arr a (player g)) g in
                  let g := with_player (with_moves (moves (player g) + 1) (player g)) g in
                  let g :=
                    if is_sorted (arr (player g))
                       && is_None (finish_time (player g))
                    then stamp_player g else g in
                  Ok (with_player (with_selected None (player g)) g)
              | IndexError => IndexError
              | OutOfFuel => OutOfFuel
              end
            else Ok (with_player (with_selected None (player g)) g)
        end
  end.

(** [step_interval = 1.0 / ALGO_STEPS_PER_SEC] *)
Definition ALGO_STEPS_PER_SEC : float := 24.
Definition step_interval : float := 1 / ALGO_STEPS_PER_SEC.

(** The [while] loop of [update_algo].  [gen] is [self._gen]; every turn
    either takes its next Step or meets [StopIteration] and breaks, so the
    loop is a recursion on [gen]. *)
Fixpoint drain (gen : list Step) (g : Game) : Game :=
  if (step_interval <=? _algo_step_timer g)%float then
    let g := with_algo_step_timer (_algo_step_timer g - step_interval)%float g in
    match gen with
    | step :: gen' =>
        let g := with_gen gen' g in
        let g := with_algo (with_arr (array step) (algo g)) g in
        let g := with_current_step (Some step) g in
        let '(t, g) := perf_counter g in
        let g := with_last_step_time t g in
        let g :=
          if bool_decide (action step = "done")
             && is_None (finish_time (algo g))
          then stamp_algo g else g in
        drain gen' g
    | [] =>
        if is_None (finish_time (algo g)) then stamp_algo g else g
    end
  else g.

Definition update_algo (dt : float) (g : Game) : Game :=
  if is_not_None (finish_time (algo g)) || paused_algo g then g
  else
    let g := with_algo_step_timer (_algo_step_timer g + dt)%float g in
    drain (_gen g) g.

(** The finish check of the main loop in [run]. *)
Definition check_player_finished (g : Game) : Game :=
  if is_None (finish_time (player g)) && is_sorted (arr (player g))
  then stamp_player g else g.

(** [self.paused_algo = not self.paused_algo] *)
Definition toggle_pause (g : Game) : Game :=
  with_paused_algo (negb (paused_algo g)) g.

(** [x or now] on an optional float: [None] and zero are both falsy. *)
Definition float_or (x : option float) (now : float) : float :=
  match x with
  | Some t => if (t =? 0)%float then now else t
  | None => now
  end.

Inductive Winner : Type := YouWin | QuickSortWins | ItsATie.

Definition p_time (now : float) (g : Game) : float :=
  (float_or (finish_time (player g)) now - start_time (player g))%float.
Definition a_time (now : float) (g : Game) : float :=
  (float_or (finish_time (algo g)) now - start_time (algo g))%float.

(** The results overlay of [draw]: shown once both sides have a finish
    time, with the winner decided by the two elapsed times. *)
Definition results_overlay (now : float) (g : Game) : option Winner :=
  if is_not_None (finish_time (player g))
     && is_not_None (finish_time (algo g))
  then
    Some (if (p_time now g <? a_time now g)%float then YouWin
          else if (a_time now g <? p_time now g)%float then QuickSortWins
          else ItsATie)
  else None.

(** [draw], as far as the engine is concerned: the clock is read for the
    highlight fade when there is a current Step, and once for [now]. *)
Definition draw (g : Game) : option Winner * Game :=
  let g := match _current_step g with
           | Some _ => snd (perf_counter g)
           | None => g
           end in
  let '(now, g) := perf_counter g in
  (results_overlay now g, g).

(** What the main loop does between two frames. *)
Inductive Op : Type :=
| Click (hit : option Z)
| TogglePause
| Tick (dt : float)
| CheckFinished
| Draw.

Definition run_op (op : Op) (g : Game) : outcome Game :=
  match op with
  | Click hit => _handle_click hit g
  | TogglePause => Ok (toggle_pause g)
  | Tick dt => Ok (update_algo dt g)
  | CheckFinished => Ok (check_player_finished g)
  | Draw => Ok (snd (draw g))
  end.

Fixpoint run_ops (ops : list Op) (g : Game) : outcome Game :=
  match ops with
  | [] => Ok g
  | op :: ops' =>
      match run_op op g with
      | Ok g' => run_ops ops' g'
      | IndexError => IndexError
      | OutOfFuel => OutOfFuel
      end
  end.

(** [__init__]: the fields set before the first [reset], then [reset].
    [clock] is the process clock and [base] the first shuffled array. *)
Definition init (clock : nat → float) (base : list Z) : Game :=
  reset base
    (mkGame (mkSide [] 0 None 0 None) (mkSide [] 0 None 0 None) [] None
       0%float 0%float false clock 0).

(** The two race sides. *)
Inductive Side : Type := PlayerSide | AlgoSide.

Definition side_of (sd : Side) (g : Game) : SideState :=
  match sd with
  | PlayerSide => player g
  | AlgoSide => algo g
  end.

(** ** Array factory *)

(** [list(range(start, stop, step))] for a positive [step]. *)
Definition range_step (start stop step : Z) : list Z :=
  (λ k, start + step * Z.of_nat k)
    <$> seq 0 (Z.to_nat ((stop - start + step - 1) / step)).

(** [new_array(n)].  [shuffle] is what [random.shuffle] does to the list
    this time; the library promises a rearrangement of it. *)
Definition new_array (shuffle : list Z → list Z) (n : Z) : list Z :=
  let values := range_step 10 (10 + n * 5) 5 in
  shuffle values.

(** ** Events and the main loop *)

(** pygame's key codes, as far as the program tells them apart. *)
Definition K_ESCAPE : Z := 27.
Definition K_SPACE : Z := 32.
Definition K_1 : Z := 49.
Definition K_2 : Z := 50.
Definition K_3 : Z := 51.
Definition K_q : Z := 113.
Definition K_r : Z := 114.

(** [SIZES]: the difficulty presets. *)
Definition SIZES : gmap Z Z := <[K_1 := 12]> (<[K_2 := 24]> (<[K_3 := 36]> ∅)).

(** The events [handle_events] distinguishes; a mouse press carries the
    button and what the hit test computes for its position. *)
Inductive Event : Type :=
| QUIT
| KEYDOWN (key : Z)
| MOUSEBUTTONDOWN (button : Z) (hit : option Z)
| OtherEvent.

(** The game with the fields outside the engine that the event loop uses:
    the preset size, and the random source, [shuffle_at k] being what
    [random.shuffle] does on its [k]-th call. *)
Record App : Type := mkApp {
  game : Game;
  size : Z;
  shuffle_at : nat → list Z → list Z;
  shuffles : nat;
}.

Definition with_game (g : Game) (a : App) : App :=
  mkApp g (size a) (shuffle_at a) (shuffles a).
Definition with_size (n : Z) (a : App) : App :=
  mkApp (game a) n (shuffle_at a) (shuffles a).

(** [self.reset(full=True)] with its call of [new_array(self.size)]. *)
Definition reset_app (a : App) : App :=
  let base := new_array (shuffle_at a (shuffles a)) (size a) in
  mkApp (reset base (game a)) (size a) (shuffle_at a) (S (shuffles a)).

(** What one event does, and whether the loop goes on to the next one
    ([false]: [handle_events] returns [False] at once). *)
Definition handle_event (e : Event) (a : App) : outcome (bool * App) :=
  match e with
  | QUIT => Ok (false, a)
  | KEYDOWN key =>
      if (key =? K_ESCAPE) || (key =? K_q) then Ok (false, a)
      else
        let a := if key =? K_r then reset_app a else a in
        let a := match SIZES !! key with
                 | Some n => reset_app (with_size n a)
                 | None => a
                 end in
        let a := if key =? K_SPACE then with_game (toggle_pause (game a)) a else a in
        Ok (true, a)
  | MOUSEBUTTONDOWN button hit =>
      if button =? 1 then
        match _handle_click hit (game a) with
        | Ok g => Ok (true, with_game g a)
        | IndexError => IndexError
        | OutOfFuel => OutOfFuel
        end
      else Ok (true, a)
  | OtherEvent => Ok (true, a)
  end.

(** [handle_events] on the batch [pygame.event.get()] returned. *)
Fixpoint handle_events (events : list Event) (a : App) : outcome (bool * App) :=
  match events with
  | [] => Ok (true, a)
  | e :: events' =>
      match handle_event e a with
      | Ok (true, a') => handle_events events' a'
      | Ok (false, a') => Ok (false, a')
      | IndexError => IndexError
      | OutOfFuel => OutOfFuel
      end
  end.

(** One turn of the loop in [run]: the events, the pacing tick with the
    frame's [dt], the finish check and the redraw.  [false]: the loop is
    left before the tick. *)
Definition frame (events : list Event) (dt : float) (a : App) : outcome (bool * App) :=
  match handle_events events a with
  | Ok (true, a') =>
      let g := update_algo dt (game a') in
      let g := check_player_finished g in
      let g := snd (draw g) in
      Ok (true, with_game g a')
  | Ok (false, a') => Ok (false, a')
  | IndexError => IndexError
  | OutOfFuel => OutOfFuel
  end.

(** ** Bar colours *)

Definition Color : Type := Z * Z * Z.
Definition GREEN : Color := (56, 200, 120).
Definition RED : Color := (230, 80, 90).
Definition AMBER : Color := (250, 190, 80).
Definition BLUE : Color := (120, 160, 255).
Definition PURPLE : Color := (155, 120, 255).
Definition GREY_BAR : Color := (70, 72, 80).

(** [idx == o] for an int and an optional int. *)
Definition eq_index (idx : Z) (o : option Z) : bool :=
  match o with
  | Some k => idx =? k
  | None => false
  end.

(** The colour [Drawer.bars] gives to bar [idx]; [accent] is the panel's
    accent colour.  A [Step] object is always truthy. *)
Definition bar_color (accent : Color) (highlight : option Step)
    (selected_idx : option Z) (idx : Z) : Color :=
  let color := GREY_BAR in
  let color := if is_not_None selected_idx && eq_index idx selected_idx
               then BLUE else color in
  match highlight with
  | Some h =>
      let color := if eq_index idx (pivot_index h)
                      && negb (bool_decide (action h = "done"))
                   then AMBER else color in
      let color := if eq_index idx (i h) then PURPLE else color in
      let color := if eq_index idx (j h) then accent else color in
      color
  | None => color
  end.

(** ** Predicates used in the statements *)

(** [o] is null or a position of the Step's array, [0 .. len - 1]. *)
Definition valid_position (s : Step) (o : option Z) : Prop :=
  match o with
  | None => True
  | Some k => 0 <= k < Z.of_nat (length (array s))
  end.

(** All three index fields are null or positions of the Step's array. *)
Definition indices_valid (s : Step) : Prop :=
  valid_position s (i s) ∧ valid_position s (j s) ∧ valid_position s (pivot_index s).

Definition carries_no_indices (s : Step) : Prop :=
  i s = None ∧ j s = None ∧ pivot_index s = None.

(** The Lomuto boundary before the scan index: null, a position, or [-1]
    when nothing has been found at most the pivot in a range that starts at
    position [0]. *)
Definition boundary_position (s : Step) (o : option Z) : Prop :=
  match o with
  | None => True
  | Some k => -1 <= k < Z.of_nat (length (array s)) - 1
  end.

(** As [indices_valid], but [i] of a "compare" Step is the boundary. *)
Definition indices_in_bounds (s : Step) : Prop :=
  (if decide (action s = "compare") then boundary_position s (i s)
   else valid_position s (i s))
  ∧ valid_position s (j s) ∧ valid_position s (pivot_index s).

(** A "swap" Step names two distinct positions of its array. *)
Definition swap_is_exchange (s : Step) : Prop :=
  action s = "swap" →
  ∃ a b, i s = Some a ∧ j s = Some b ∧ 0 <= a ∧ a < b ∧ b < Z.of_nat (length (array s)).

(** What every reachable state satisfies: the player's array is a
    permutation of the array of the last reset, and a pending selection is
    one of its positions. *)
Definition player_array_ok (base : list Z) (g : Game) : Prop :=
  arr (player g) ≡ₚ base
  ∧ ∀ s, selected (player g) = Some s → 0 <= s < Z.of_nat (length (arr (player g))).

(** [outcome_map f o]: [f] under [Ok]. *)
Definition outcome_map {A B : Type} (f : A → B) (o : outcome A) : outcome B :=
  match o with
  | Ok a => Ok (f a)
  | IndexError => IndexError
  | OutOfFuel => OutOfFuel
  end.

(** The same session had SPACE never been pressed: the pause toggles are
    gone, and so are the ticks that arrived while paused. *)
Fixpoint never_pausing (paused : bool) (ops : list Op) : list Op :=
  match ops with
  | [] => []
  | op :: ops' =>
      match op with
      | TogglePause => never_pausing (negb paused) ops'
      | Tick _ =>
          if paused then never_pausing paused ops'
          else op :: never_pausing paused ops'
      | _ => op :: never_pausing paused ops'
      end
  end.

(** The algorithm side has consumed and applied the first [k] Steps of the
    generator made at the reset on [base], in order: the generator holds the
    rest, the current Step is the last one applied, and the displayed array
    is that Step's array (still [base] when nothing has been applied). *)
Definition applied_prefix (base : list Z) (k : nat) (g : Game) : Prop :=
  _gen g = drop k (generator base)
  ∧ _current_step g = last (take k (generator base))
  ∧ arr (algo g) = match last (take k (generator base)) with
                   | Some s => array s
                   | None => base
                   end.

(** How many Steps of the generator made on [base] have been consumed. *)
Definition steps_consumed (base : list Z) (g : Game) : nat :=
  (length (generator base) - length (_gen g))%nat.

(** The clicks among the operations of a session. *)
Definition is_click (op : Op) : bool :=
  match op with
  | Click _ => true
  | _ => false
  end.

Definition count_clicks (ops : list Op) : nat := length (filter is_click ops).

(** What every reachable state satisfies on the algorithm side: it has
    applied a prefix of the generator's Steps, and its finish time is set
    exactly when the generator has nothing left. *)
Definition algo_side_ok (base : list Z) (g : Game) : Prop :=
  (∃ k, applied_prefix base k g)
  ∧ (is_Some (finish_time (algo g)) ↔ _gen g = []).

(** [time.perf_counter()] returns a positive number of seconds at every
    read. *)
Definition positive_clock (g : Game) : Prop :=
  ∀ n, (0 <? perf_counter_at g n)%float = true.

(** On a positive clock the finish stamps, being clock reads, are positive
    too. *)
Definition stamps_positive (g : Game) : Prop :=
  positive_clock g
  ∧ (∀ t, finish_time (player g) = Some t → (0 <? t)%float = true)
  ∧ (∀ t, finish_time (algo g) = Some t → (0 <? t)%float = true).

(** A player with a finish time has a sorted array. *)
Definition player_done_sorted (g : Game) : Prop :=
  is_Some (finish_time (player g)) → is_sorted (arr (player g)) = true.

(** One for a pending selection, zero for none. *)
Definition pending (g : Game) : Z :=
  if is_not_None (selected (player g)) then 1 else 0.

(** ** Sessions used as examples *)

(** A clock that ticks one second per read, starting at one. *)
Fixpoint second_clock (n : nat) : float :=
  match n with
  | O => 1
  | S n' => second_clock n' + 1
  end.

(** A clock for a race of 4.0 s against 3.5 s: it reads 1 and 2 at the two
    start stamps, 5 at the third read and 5.5 from then on. *)
Definition race_clock (n : nat) : float :=
  match n with
  | 0%nat => 1
  | 1%nat => 2
  | 2%nat => 5
  | _ => 5.5
  end.

(** The state [__init__] leaves for its [reset], on the race clock. *)
Definition before_race : Game :=
  mkGame (mkSide [] 0 None 0 None) (mkSide [] 0 None 0 None) [] None
    0%float 0%float false race_clock 0.

(** Twelve distinct bar heights, shuffled. *)
Definition shuffled12 : list Z :=
  [35; 10; 60; 25; 50; 15; 65; 40; 20; 55; 30; 45].

(** A game on [30, 10, 20] in which the player has selected bar 1. *)
Definition game_with_selection : Game :=
  let g := init second_clock [30; 10; 20] in
  with_player (with_selected (Some 1) (player g)) g.

(** A game on an array that is sorted from the start, after the main
    loop's finish check has stamped the player's finish time. *)
Definition game_player_finished : Game :=
  check_player_finished (init second_clock [10; 15; 20]).

(** A fresh game on [shuffled12] with the algorithm side paused. *)
Definition game_paused : Game := toggle_pause (init second_clock shuffled12).

(** Both sides finished: the player after 4.0 s, QuickSort after 3.5 s. *)
Definition race_4_vs_3_5 : Game :=
  mkGame (mkSide [10; 20; 30] 1 (Some 5%float) 1 None)
         (mkSide [10; 20; 30] 2 (Some 5.5%float) 0 None)
         [] (Some (mkStep [10; 20; 30] None None None "done"))
         0%float 5.5%float false second_clock 12.

(** The program on [20, 10, 30] with the default size and a random source
    that reverses. *)
Definition app_20_10_30 : App :=
  mkApp (init second_clock [20; 10; 30]) 24 (λ _ l, reverse l) 0.

(** * Properties *)

Example quicksort_steps_30_10_20 :
  quicksort_steps [30; 10; 20] =
  Ok [ mkStep [30; 10; 20] None None (Some 2) "pivot";
       mkStep [30; 10; 20] (Some (-1)) (Some 0) (Some 2) "compare";
       mkStep [30; 10; 20] (Some (-1)) (Some 1) (Some 2) "compare";
       mkStep [10; 30; 20] (Some 0) (Some 1) (Some 2) "swap";
       mkStep [10; 20; 30] (Some 1) (Some 2) (Some 2) "partition";
       mkStep [10; 20; 30] None None None "done" ].
Proof. vm_compute. reflexivity. Qed.

(** ** Subscripting in the middle of a list *)

Lemma py_index_nat (n : nat) (p : nat) :
  (p < n)%nat → py_index n (Z.of_nat p) = Some p.
Proof.
  intros Hp. unfold py_index.
  replace (0 <=? Z.of_nat p) with true by (symmetry; apply Z.leb_le; lia).
  replace (Z.of_nat p <? Z.of_nat n) with true by (symmetry; apply Z.ltb_lt; lia).
  simpl. by rewrite Nat2Z.id.
Qed.

Lemma list_getitem_middle (l1 l2 : list Z) (x : Z) (k : Z) :
  k = Z.of_nat (length l1) → list_getitem (l1 ++ x :: l2) k = Some x.
Proof.
  intros ->. unfold list_getitem.
  rewrite py_index_nat by (rewrite length_app; simpl; lia).
  simpl. by rewrite list_lookup_middle.
Qed.

Lemma list_setitem_middle (l1 l2 : list Z) (x v : Z) (k : Z) :
  k = Z.of_nat (length l1) →
  list_setitem (l1 ++ x :: l2) k v = Some (l1 ++ v :: l2).
Proof.
  intros ->. unfold list_setitem.
  rewrite py_index_nat by (rewrite length_app; simpl; lia).
  simpl. f_equal.
  rewrite insert_app_r_alt by lia.
  by rewrite Nat.sub_diag.
Qed.

Lemma getitem_middle (arr l1 l2 : list Z) (x : Z) (k : Z) :
  arr = l1 ++ x :: l2 → k = Z.of_nat (length l1) →
  getitem k arr = Ok (x, arr, []).
Proof.
  intros -> Hk. unfold getitem. by rewrite list_getitem_middle.
Qed.

Lemma setitem_middle (arr l1 l2 : list Z) (x v : Z) (k : Z) :
  arr = l1 ++ x :: l2 → k = Z.of_nat (length l1) →
  setitem k v arr = Ok (tt, l1 ++ v :: l2, []).
Proof.
  intros -> Hk. unfold setitem. by rewrite list_setitem_middle.
Qed.

(** Exchanging two distinct positions [a < b]. *)
Lemma swap_items_middle (arr l1 l2 l3 : list Z) (x y : Z) (a b : Z) :
  arr = l1 ++ x :: l2 ++ y :: l3 →
  a = Z.of_nat (length l1) →
  b = Z.of_nat (length l1 + 1 + length l2) →
  swap_items a b arr = Ok (tt, l1 ++ y :: l2 ++ x :: l3, []).
Proof.
  intros Harr Ha Hb. unfold swap_items, gbind.
  rewrite (getitem_middle arr (l1 ++ x :: l2) l3 y b).
  2: { by rewrite Harr, <- app_assoc. }
  2: { rewrite Hb, length_app. simpl. lia. }
  rewrite (getitem_middle arr l1 (l2 ++ y :: l3) x a) by done.
  rewrite (setitem_middle arr l1 (l2 ++ y :: l3) x y a) by done.
  rewrite (setitem_middle (l1 ++ y :: l2 ++ y :: l3) (l1 ++ y :: l2) l3 y x b).
  2: { by rewrite <- app_assoc. }
  2: { rewrite Hb, length_app. simpl. lia. }
  simpl. by rewrite <- app_assoc.
Qed.

Lemma range_nil (lo hi : Z) : hi <= lo → range lo hi = [].
Proof.
  intros H. unfold range. by replace (Z.to_nat (hi - lo)) with 0%nat by lia.
Qed.

Lemma range_cons (lo hi : Z) : lo < hi → range lo hi = lo :: range (lo + 1) hi.
Proof.
  intros H. unfold range.
  replace (Z.to_nat (hi - lo)) with (S (Z.to_nat (hi - (lo + 1)))) by lia.
  simpl. f_equal; [lia|].
  rewrite <- fmap_S_seq, <- list_fmap_compose.
  apply list_fmap_ext. intros ? k ?. simpl. lia.
Qed.

(** ** One iteration of the scan loop *)

(** [arr[j] > pivot]: only the comparison is announced. *)
Lemma partition_body_gt (pivot hi jj ii : Z) (arr l1 l2 : list Z) (x : Z) :
  arr = l1 ++ x :: l2 → jj = Z.of_nat (length l1) → pivot < x →
  partition_body pivot hi jj ii arr =
  Ok (ii, arr, [mkStep arr (Some ii) (Some jj) (Some hi) "compare"]).
Proof.
  intros Harr Hj Hx. unfold partition_body, gbind, copy, yield.
  rewrite (getitem_middle arr l1 l2 x jj) by done.
  replace (x <=? pivot) with false by (symmetry; apply Z.leb_gt; lia).
  reflexivity.
Qed.

(** [arr[j] <= pivot] and the incremented boundary is [j] itself: the array
    is left alone and no "swap" Step is produced. *)
Lemma partition_body_le_same (pivot hi jj ii : Z) (arr l1 l2 : list Z) (x : Z) :
  arr = l1 ++ x :: l2 → jj = Z.of_nat (length l1) → x <= pivot → ii + 1 = jj →
  partition_body pivot hi jj ii arr =
  Ok (ii + 1, arr, [mkStep arr (Some ii) (Some jj) (Some hi) "compare"]).
Proof.
  intros Harr Hj Hx Hi. unfold partition_body, gbind, copy, yield.
  rewrite (getitem_middle arr l1 l2 x jj) by done.
  replace (x <=? pivot) with true by (symmetry; apply Z.leb_le; lia).
  replace (ii + 1 =? jj) with true by (symmetry; apply Z.eqb_eq; lia).
  reflexivity.
Qed.

(** [arr[j] <= pivot] and the incremented boundary is left of [j]: the two
    entries are exchanged and a "swap" Step shows the result. *)
Lemma partition_body_le_swap (pivot hi jj ii : Z) (arr l1 l2 l3 : list Z) (b x : Z) :
  arr = l1 ++ b :: l2 ++ x :: l3 →
  ii + 1 = Z.of_nat (length l1) →
  jj = Z.of_nat (length l1 + 1 + length l2) →
  x <= pivot →
  partition_body pivot hi jj ii arr =
  Ok (ii + 1, l1 ++ x :: l2 ++ b :: l3,
      [mkStep arr (Some ii) (Some jj) (Some hi) "compare";
       mkStep (l1 ++ x :: l2 ++ b :: l3) (Some (ii + 1)) (Some jj) (Some hi) "swap"]).
Proof.
  intros Harr Hi Hj Hx. unfold partition_body, gbind, copy, yield.
  rewrite (getitem_middle arr (l1 ++ b :: l2) l3 x jj).
  2: { by rewrite Harr, <- app_assoc. }
  2: { rewrite Hj, length_app. simpl. lia. }
  replace (x <=? pivot) with true by (symmetry; apply Z.leb_le; lia).
  replace (ii + 1 =? jj) with false by (symmetry; apply Z.eqb_neq; lia).
  simpl.
  rewrite (swap_items_middle arr l1 l2 l3 b x (ii + 1) jj) by done.
  reflexivity.
Qed.

(** ** Shape of the Steps of a partition pass *)

Lemma inner_step_mono (lo hi lo' hi' : Z) (s : Step) :
  lo' <= lo → hi <= hi' → inner_step lo hi s → inner_step lo' hi' s.
Proof.
  intros Hlo Hhi Hs. destruct Hs; constructor; lia.
Qed.

Lemma for_each_cons {S : Type} (k : Z) (ks : list Z) (body : Z → S → Gen S)
    (s s' : S) (arr arr1 : list Z) (ss1 : list Step) :
  body k s arr = Ok (s', arr1, ss1) →
  for_each (k :: ks) body s arr =
  match for_each ks body s' arr1 with
  | Ok (r, arr2, ss2) => Ok (r, arr2, ss1 ++ ss2)
  | IndexError => IndexError
  | OutOfFuel => OutOfFuel
  end.
Proof. intros H. simpl. unfold gbind. by rewrite H. Qed.

(** The scan loop, started at scan index [|pre| + |A| + |B|] with boundary
    [|pre| + |A| - 1]: [A] holds the entries known to be [<= pivot], [B]
    those known to be [> pivot], [C] is still to be scanned. *)
Lemma scan_loop_spec (pivot hi : Z) (pre post : list Z) (C : list Z) :
  ∀ A B : list Z,
    hi = Z.of_nat (length pre + length A + length B + length C) →
    Forall (λ x, x <= pivot) A → Forall (λ x, pivot < x) B →
    ∃ A' B' ss,
      for_each (range (Z.of_nat (length pre + length A + length B)) hi)
        (partition_body pivot hi)
        (Z.of_nat (length pre + length A) - 1)
        (pre ++ A ++ B ++ C ++ pivot :: post)
      = Ok (Z.of_nat (length pre + length A') - 1,
            pre ++ A' ++ B' ++ pivot :: post, ss)
      ∧ A' ++ B' ≡ₚ A ++ B ++ C
      ∧ Forall (λ x, x <= pivot) A' ∧ Forall (λ x, pivot < x) B'
      ∧ Forall (inner_step (Z.of_nat (length pre)) hi) ss
      ∧ Forall (λ s, array s ≡ₚ pre ++ A ++ B ++ C ++ pivot :: post) ss.
Proof.
  induction C as [|x C IH]; intros A B Hhi HA HB.
  - rewrite range_nil by (simpl in Hhi; lia).
    exists A, B, []. simpl. rewrite app_nil_r. by repeat split.
  - rewrite range_cons by (simpl in Hhi; lia).
    set (ii := Z.of_nat (length pre + length A) - 1).
    set (jj := Z.of_nat (length pre + length A + length B)).
    set (arr := pre ++ A ++ B ++ (x :: C) ++ pivot :: post).
    assert (Hcmp : inner_step (Z.of_nat (length pre)) hi
                     (mkStep arr (Some ii) (Some jj) (Some hi) "compare")).
    { constructor; unfold ii, jj; simpl in Hhi; lia. }
    destruct (Z.le_gt_cases x pivot) as [Hle|Hgt].
    + destruct B as [|b B].
      * (* the boundary catches up with the scan index *)
        destruct (IH (A ++ [x]) []) as (A' & B' & ss & Hrun & Hperm & HA' & HB' & Hin & Hsnap).
        { rewrite Hhi, length_app. simpl. lia. }
        { apply Forall_app. split; [done|]. by constructor. }
        { constructor. }
        exists A', B'. eexists.
        rewrite (for_each_cons jj _ _ ii (ii + 1) arr arr
                   [mkStep arr (Some ii) (Some jj) (Some hi) "compare"]).
        2: { apply (partition_body_le_same _ _ _ _ _ (pre ++ A) (C ++ pivot :: post) x).
             - unfold arr. simpl. by rewrite <- !app_assoc.
             - unfold jj. rewrite length_app. simpl. lia.
             - done.
             - unfold ii, jj. simpl. lia. }
        assert (Harr : arr = pre ++ (A ++ [x]) ++ [] ++ C ++ pivot :: post).
        { unfold arr. simpl. by rewrite <- !app_assoc. }
        replace (Z.of_nat (length pre + length (A ++ [x]) + length (@nil Z)))
          with (jj + 1) in Hrun by (unfold jj; rewrite length_app; simpl; lia).
        replace (Z.of_nat (length pre + length (A ++ [x])) - 1)
          with (ii + 1) in Hrun by (unfold ii; rewrite length_app; simpl; lia).
        rewrite <- Harr in Hrun, Hsnap. rewrite Hrun. split; [reflexivity|].
        split.
        { rewrite Hperm. solve_Permutation. }
        repeat split; try done.
        { by constructor. }
        { by constructor. }
      * (* an exchange with the first entry of [B] *)
        destruct (IH (A ++ [x]) (B ++ [b])) as (A' & B' & ss & Hrun & Hperm & HA' & HB' & Hin & Hsnap).
        { rewrite Hhi, !length_app. simpl. lia. }
        { apply Forall_app. split; [done|]. by constructor. }
        { apply Forall_cons in HB as [Hb HB]. apply Forall_app. split; [done|]. by constructor. }
        set (arr1 := (pre ++ A) ++ x :: B ++ b :: C ++ pivot :: post).
        assert (Hswp : inner_step (Z.of_nat (length pre)) hi
                         (mkStep arr1 (Some (ii + 1)) (Some jj) (Some hi) "swap")).
        { apply inner_swap; unfold ii, jj; simpl in Hhi |- *; lia. }
        assert (Hp1 : arr1 ≡ₚ arr).
        { unfold arr, arr1. solve_Permutation. }
        assert (Harr1 : arr1 = pre ++ (A ++ [x]) ++ (B ++ [b]) ++ C ++ pivot :: post).
        { unfold arr1. simpl. by rewrite <- !app_assoc. }
        exists A', B'. eexists.
        rewrite (for_each_cons jj _ _ ii (ii + 1) arr arr1
                   [mkStep arr (Some ii) (Some jj) (Some hi) "compare";
                    mkStep arr1 (Some (ii + 1)) (Some jj) (Some hi) "swap"]).
        2: { apply (partition_body_le_swap _ _ _ _ _ (pre ++ A) B (C ++ pivot :: post) b x).
             - unfold arr. simpl. by rewrite <- !app_assoc.
             - unfold ii. rewrite length_app. lia.
             - unfold jj. rewrite length_app. simpl. lia.
             - done. }
        replace (Z.of_nat (length pre + length (A ++ [x]) + length (B ++ [b])))
          with (jj + 1) in Hrun by (unfold jj; rewrite !length_app; simpl; lia).
        replace (Z.of_nat (length pre + length (A ++ [x])) - 1)
          with (ii + 1) in Hrun by (unfold ii; rewrite length_app; simpl; lia).
        rewrite <- Harr1 in Hrun. rewrite Hrun. split; [reflexivity|].
        split.
        { rewrite Hperm. solve_Permutation. }
        repeat split; try done.
        { by repeat (constructor; [done|]). }
        { constructor; [done|]. constructor; [done|].
          eapply Forall_impl; [exact Hsnap|]. intros s Hs. simpl in Hs.
          by rewrite Hs, <- Harr1, Hp1. }
    + (* [x] joins the large entries *)
      destruct (IH A (B ++ [x])) as (A' & B' & ss & Hrun & Hperm & HA' & HB' & Hin & Hsnap).
      { rewrite Hhi, !length_app. simpl. lia. }
      { done. }
      { apply Forall_app. split; [done|]. constructor; [lia|done]. }
      exists A', B'. eexists.
      rewrite (for_each_cons jj _ _ ii ii arr arr
                 [mkStep arr (Some ii) (Some jj) (Some hi) "compare"]).
      2: { apply (partition_body_gt _ _ _ _ _ (pre ++ A ++ B) (C ++ pivot :: post) x).
           - unfold arr. simpl. by rewrite <- !app_assoc.
           - unfold jj. rewrite !length_app. lia.
           - lia. }
      assert (Harr : arr = pre ++ A ++ (B ++ [x]) ++ C ++ pivot :: post).
      { unfold arr. simpl. by rewrite <- !app_assoc. }
      replace (Z.of_nat (length pre + length A + length (B ++ [x])))
        with (jj + 1) in Hrun by (unfold jj; rewrite !length_app; simpl; lia).
      fold ii in Hrun.
      rewrite <- Harr in Hrun, Hsnap. rewrite Hrun. split; [reflexivity|].
      split.
      { rewrite Hperm. solve_Permutation. }
      repeat split; try done.
      { by constructor. }
      { by constructor. }
Qed.

Lemma Ok_eq {A : Type} (a a' : A) (arr arr' : list Z) (ss ss' : list Step) :
  a = a' → arr = arr' → ss = ss' → Ok (a, arr, ss) = Ok (a', arr', ss').
Proof. by intros -> -> ->. Qed.

Lemma gbind_Ok {A B : Type} (m : Gen A) (f : A → Gen B) (arr arr1 : list Z)
    (a : A) (ss1 : list Step) :
  m arr = Ok (a, arr1, ss1) →
  gbind m f arr =
  match f a arr1 with
  | Ok (b, arr2, ss2) => Ok (b, arr2, ss1 ++ ss2)
  | IndexError => IndexError
  | OutOfFuel => OutOfFuel
  end.
Proof. intros H. unfold gbind. by rewrite H. Qed.

(** ** A partition pass *)

(** [_partition lo hi] on the range [C ++ [pivot]] placed after [pre]:
    the range becomes [A ++ [pivot] ++ B] with [A] at most the pivot and [B]
    above it, the rest of the array is untouched, and the returned index is
    where the pivot now stands. *)
Lemma partition_spec (pre C post : list Z) (pivot : Z) :
  ∃ A B ss,
    _partition (Z.of_nat (length pre)) (Z.of_nat (length pre + length C))
      (pre ++ C ++ pivot :: post)
    = Ok (Z.of_nat (length pre + length A), pre ++ A ++ pivot :: B ++ post, ss)
    ∧ A ++ B ≡ₚ C
    ∧ Forall (λ x, x <= pivot) A ∧ Forall (λ x, pivot < x) B
    ∧ Forall (inner_step (Z.of_nat (length pre)) (Z.of_nat (length pre + length C))) ss
    ∧ Forall (λ s, array s ≡ₚ pre ++ C ++ pivot :: post) ss.
Proof.
  set (lo := Z.of_nat (length pre)).
  set (hi := Z.of_nat (length pre + length C)).
  set (arr := pre ++ C ++ pivot :: post).
  destruct (scan_loop_spec pivot hi pre post C [] [])
    as (A & B & ss & Hrun & Hperm & HA & HB & Hin & Hsnap).
  { unfold hi. simpl. lia. }
  { constructor. }
  { constructor. }
  simpl in Hrun, Hperm, Hsnap. fold arr in Hrun, Hsnap.
  replace (Z.of_nat (length pre + 0 + 0)) with lo in Hrun by (unfold lo; lia).
  replace (Z.of_nat (length pre + 0) - 1) with (lo - 1) in Hrun by (unfold lo; lia).
  assert (Hlen : (length A + length B = length C)%nat).
  { rewrite <- length_app. by rewrite Hperm. }
  assert (Hpiv : inner_step lo hi (mkStep arr None None (Some hi) "pivot")).
  { constructor; unfold lo, hi; lia. }
  unfold _partition.
  rewrite (gbind_Ok _ _ arr arr pivot []).
  2: { apply (getitem_middle arr (pre ++ C) post pivot hi).
       - unfold arr. by rewrite <- app_assoc.
       - unfold hi. by rewrite length_app. }
  rewrite (gbind_Ok _ _ arr arr arr []) by done.
  rewrite (gbind_Ok _ _ arr arr tt [mkStep arr None None (Some hi) "pivot"]) by done.
  rewrite (gbind_Ok _ _ _ _ _ _ Hrun).
  destruct B as [|b B].
  - (* the pivot already stands right after [A] *)
    replace (Z.of_nat (length pre + length A) - 1 + 1 =? hi) with true.
    2: { symmetry. apply Z.eqb_eq. unfold hi. simpl in Hlen. lia. }
    exists A, []. eexists. simpl. split.
    { repeat f_equal. lia. }
    rewrite !app_nil_r. rewrite app_nil_r in Hperm.
    repeat split; try done.
    + by constructor.
    + by constructor.
  - (* the pivot is exchanged with the first large entry *)
    replace (negb (Z.of_nat (length pre + length A) - 1 + 1 =? hi)) with true.
    2: { symmetry. apply negb_true_iff, Z.eqb_neq. unfold hi. simpl in Hlen. lia. }
    set (arr1 := pre ++ A ++ (b :: B) ++ pivot :: post).
    set (arr2 := (pre ++ A) ++ pivot :: B ++ b :: post).
    assert (Hp2 : arr2 ≡ₚ arr).
    { unfold arr2, arr. rewrite <- Hperm. solve_Permutation. }
    assert (Hpart : inner_step lo hi
              (mkStep arr2 (Some (Z.of_nat (length pre + length A) - 1 + 1))
                 (Some hi) (Some hi) "partition")).
    { constructor; unfold lo, hi; simpl in Hlen; lia. }
    rewrite (gbind_Ok _ _ arr1 arr2 tt []).
    2: { apply (swap_items_middle arr1 (pre ++ A) B post b pivot).
         - unfold arr1. simpl. by rewrite <- !app_assoc.
         - rewrite length_app. lia.
         - unfold hi. rewrite length_app. simpl in Hlen. lia. }
    rewrite (gbind_Ok _ _ arr2 arr2 arr2 []) by done.
    rewrite (gbind_Ok _ _ arr2 arr2 tt _ eq_refl).
    replace (Z.of_nat (length pre + length A) - 1 + 1)
      with (Z.of_nat (length pre + length A)) in * by lia.
    exists A, (B ++ [b]). eexists. unfold gret. split.
    { apply Ok_eq; [reflexivity| |reflexivity].
      unfold arr2. simpl. by rewrite <- !app_assoc. }
    split.
    { rewrite <- Hperm. solve_Permutation. }
    split; [done|]. split.
    { apply Forall_cons in HB as [Hb HB]. apply Forall_app. split; [done|]. by constructor. }
    simpl. split.
    + constructor; [done|]. apply Forall_app. split; [done|]. by constructor.
    + constructor; [done|]. apply Forall_app. split; [done|]. by constructor.
Qed.

(** ** The recursion *)

Lemma sorted_around_pivot (A B : list Z) (pivot : Z) :
  StronglySorted Z.le A → StronglySorted Z.le B →
  Forall (λ x, x <= pivot) A → Forall (λ x, pivot < x) B →
  StronglySorted Z.le (A ++ pivot :: B).
Proof.
  intros HA HB HlA HlB. rewrite Forall_forall in HlA, HlB.
  apply StronglySorted_app_2; [|done|].
  - intros x1 x2 H1 H2. apply elem_of_cons in H2 as [->|H2].
    + by apply HlA.
    + specialize (HlA _ H1). specialize (HlB _ H2). lia.
  - constructor; [done|]. apply Forall_forall. intros x Hx.
    specialize (HlB _ Hx). lia.
Qed.

(** [_quicksort fuel lo hi] on the range [mid] placed after [pre], with at
    least [|mid|] units of fuel: the range ends up sorted, it is a
    permutation of what it was, and nothing outside it moves. *)
Lemma quicksort_spec (fuel : nat) :
  ∀ pre mid post : list Z,
    (length mid <= fuel)%nat →
    ∃ mid' ss,
      _quicksort fuel (Z.of_nat (length pre))
        (Z.of_nat (length pre + length mid) - 1) (pre ++ mid ++ post)
      = Ok (tt, pre ++ mid' ++ post, ss)
      ∧ mid' ≡ₚ mid
      ∧ StronglySorted Z.le mid'
      ∧ Forall (inner_step (Z.of_nat (length pre))
                  (Z.of_nat (length pre + length mid) - 1)) ss
      ∧ Forall (λ s, array s ≡ₚ pre ++ mid ++ post) ss.
Proof.
  induction fuel as [|fuel IH]; intros pre mid post Hfuel.
  - destruct mid; [|simpl in Hfuel; lia].
    exists [], []. simpl.
    replace (Z.of_nat (length pre) <? Z.of_nat (length pre + 0) - 1) with false
      by (symmetry; apply Z.ltb_ge; lia).
    repeat split; constructor.
  - destruct (decide (length mid <= 1)%nat) as [Hshort|Hlong].
    { (* empty and singleton ranges are silent *)
      exists mid, []. simpl.
      replace (Z.of_nat (length pre) <? Z.of_nat (length pre + length mid) - 1)
        with false by (symmetry; apply Z.ltb_ge; lia).
      repeat split; try done; try constructor.
      destruct mid as [|x [|y mid]]; [constructor|repeat constructor|simpl in Hshort; lia]. }
    destruct mid as [|pivot C _] using rev_ind; [simpl in Hlong; lia|].
    rewrite length_app in Hfuel, Hlong. simpl in Hfuel, Hlong.
    set (lo := Z.of_nat (length pre)).
    set (hi := Z.of_nat (length pre + length (C ++ [pivot])) - 1).
    set (arr := pre ++ (C ++ [pivot]) ++ post).
    assert (Hhi : hi = Z.of_nat (length pre + length C)).
    { unfold hi. rewrite length_app. simpl. lia. }
    assert (Harr : arr = pre ++ C ++ pivot :: post).
    { unfold arr. by rewrite <- !app_assoc. }
    destruct (partition_spec pre C post pivot)
      as (A & B & ss0 & Hpart & Hperm & HA & HB & Hin0 & Hsnap0).
    fold lo in Hpart, Hin0. rewrite <- Hhi in Hpart, Hin0. rewrite <- Harr in Hpart, Hsnap0.
    assert (Hlen : (length A + length B = length C)%nat).
    { rewrite <- length_app. by rewrite Hperm. }
    (* left of the pivot *)
    destruct (IH pre A (pivot :: B ++ post)) as (A' & ss1 & Hleft & HpA & HsA & Hin1 & Hsnap1).
    { lia. }
    fold lo in Hleft, Hin1.
    (* right of the pivot *)
    destruct (IH (pre ++ A' ++ [pivot]) B post) as (B' & ss2 & Hright & HpB & HsB & Hin2 & Hsnap2).
    { lia. }
    assert (HlenA : length A' = length A) by (by rewrite HpA).
    replace (Z.of_nat (length (pre ++ A' ++ [pivot])))
      with (Z.of_nat (length pre + length A) + 1) in Hright, Hin2
      by (rewrite !length_app; simpl; lia).
    replace (Z.of_nat (length (pre ++ A' ++ [pivot]) + length B) - 1)
      with hi in Hright, Hin2
      by (rewrite Hhi, !length_app; simpl; lia).
    replace ((pre ++ A' ++ [pivot]) ++ B ++ post)
      with (pre ++ A' ++ pivot :: B ++ post) in Hright, Hsnap2
      by (by rewrite <- !app_assoc).
    exists (A' ++ pivot :: B'), (ss0 ++ ss1 ++ ss2).
    split.
    { simpl.
      replace (lo <? hi) with true by (symmetry; apply Z.ltb_lt; unfold lo; lia).
      rewrite (gbind_Ok _ _ _ _ _ _ Hpart).
      rewrite (gbind_Ok _ _ _ _ _ _ Hleft).
      rewrite Hright.
      apply Ok_eq; [reflexivity| |reflexivity].
      by rewrite <- !app_assoc. }
    split.
    { rewrite HpA, HpB, <- Hperm. solve_Permutation. }
    split.
    { apply sorted_around_pivot; try done.
      - by rewrite HpA.
      - by rewrite HpB. }
    assert (Hp0 : pre ++ A ++ pivot :: B ++ post ≡ₚ arr).
    { rewrite Harr, <- Hperm. solve_Permutation. }
    split.
    + apply Forall_app. split; [done|]. apply Forall_app. split.
      * eapply Forall_impl; [exact Hin1|]. intros s. apply inner_step_mono; lia.
      * eapply Forall_impl; [exact Hin2|]. intros s. apply inner_step_mono; unfold lo; lia.
    + apply Forall_app. split; [done|]. apply Forall_app. split.
      * eapply Forall_impl; [exact Hsnap1|]. intros s Hs. simpl in Hs.
        by rewrite Hs.
      * eapply Forall_impl; [exact Hsnap2|]. intros s Hs. simpl in Hs.
        by rewrite Hs, HpA.
Qed.

(** ** The whole generator *)

(** [quicksort_steps] never fails: it yields the Steps of the partition
    passes, all showing permutations of the input, and then one "done" Step
    showing the sorted array. *)
Lemma quicksort_steps_spec (data : list Z) :
  ∃ ss sorted,
    quicksort_steps data = Ok (ss ++ [mkStep sorted None None None "done"])
    ∧ sorted ≡ₚ data
    ∧ StronglySorted Z.le sorted
    ∧ Forall (inner_step 0 (Z.of_nat (length data) - 1)) ss
    ∧ Forall (λ s, array s ≡ₚ data) ss.
Proof.
  unfold quicksort_steps, quicksort_body.
  destruct (decide (length data = 0%nat)) as [Hnil|Hcons].
  - apply nil_length_inv in Hnil as ->.
    exists [], []. simpl. repeat split; constructor.
  - destruct (quicksort_spec (length data) [] data [])
      as (sorted & ss & Hrun & Hperm & Hsorted & Hin & Hsnap); [done|].
    simpl in Hrun, Hin, Hsnap. rewrite !app_nil_r in Hrun. rewrite app_nil_r in Hsnap.
    exists ss, sorted.
    rewrite (gbind_Ok _ _ _ _ _ _ Hrun).
    unfold gbind, copy, yield. simpl.
    by repeat split.
Qed.

(** The generator object holds exactly the Steps of [quicksort_steps]. *)
Lemma generator_total (data : list Z) :
  quicksort_steps data = Ok (generator data).
Proof.
  unfold generator.
  by destruct (quicksort_steps_spec data) as (ss & sorted & -> & _).
Qed.

Lemma inner_step_not_done (lo hi : Z) (s : Step) :
  inner_step lo hi s → action s ≠ "done".
Proof. by destruct 1. Qed.

Lemma inner_step_in_bounds (n : Z) (s : Step) :
  Z.of_nat (length (array s)) = n →
  inner_step 0 (n - 1) s → indices_in_bounds s ∧ swap_is_exchange s.
Proof.
  intros Hn Hs. unfold indices_in_bounds, swap_is_exchange.
  destruct Hs; simpl in *; (split; [repeat split; lia|]); try done.
  intros _. eexists _, _. repeat split; lia.
Qed.

Lemma StronglySorted_le_NoDup_lt (l : list Z) :
  StronglySorted Z.le l → NoDup l → StronglySorted Z.lt l.
Proof.
  induction 1 as [|x l Hl IH Hx]; intros Hnd; [constructor|].
  apply NoDup_cons in Hnd as [Hnotin Hnd].
  constructor; [by apply IH|].
  rewrite Forall_forall in Hx |- *. intros y Hy.
  specialize (Hx y Hy). assert (x ≠ y) by (by intros ->). lia.
Qed.

Lemma forallb_fmap {A B : Type} (f : B → bool) (g : A → B) (l : list A) :
  forallb f (g <$> l) = forallb (λ a, f (g a)) l.
Proof. induction l as [|a l IH]; [done|]. csimpl. by rewrite IH. Qed.

Lemma is_sorted_cons (x y : Z) (l : list Z) :
  is_sorted (x :: y :: l) = (x <=? y) && is_sorted (y :: l).
Proof.
  unfold is_sorted.
  replace (length (x :: y :: l) - 1)%nat with (S (length l)) by (simpl; lia).
  replace (length (y :: l) - 1)%nat with (length l) by (simpl; lia).
  simpl seq. rewrite <- fmap_S_seq. simpl forallb at 1.
  by rewrite forallb_fmap.
Qed.

(** [is_sorted] decides ascending order. *)
Lemma is_sorted_Sorted (l : list Z) : is_sorted l = true ↔ Sorted Z.le l.
Proof.
  induction l as [|x [|y l] IH].
  - split; [constructor|reflexivity].
  - split; [repeat constructor|reflexivity].
  - rewrite is_sorted_cons, andb_true_iff, IH, Z.leb_le. split.
    + intros [Hxy Hs]. constructor; [done|by constructor].
    + intros Hs. apply Sorted_inv in Hs as [Hs Hhd]. by inversion Hhd.
Qed.

(** ** Claims about the step generator *)

(** C1. For an input of pairwise-distinct integers the generator's last
    Step shows the ascending sort of the input (a sorted permutation of it,
    strictly ascending since the values are distinct, and accepted by
    [is_sorted]), and every earlier Step shows a permutation of the input. *)
Theorem quicksort_steps_sorts (data : list Z) :
  NoDup data →
  ∃ ss last,
    quicksort_steps data = Ok (ss ++ [last])
    ∧ array last ≡ₚ data
    ∧ Sorted Z.le (array last)
    ∧ StronglySorted Z.lt (array last)
    ∧ is_sorted (array last) = true
    ∧ Forall (λ s, array s ≡ₚ data) ss.
Proof.
  intros Hnd.
  destruct (quicksort_steps_spec data) as (ss & sorted & Hrun & Hperm & Hsorted & _ & Hsnap).
  exists ss, (mkStep sorted None None None "done"). simpl.
  assert (Hs : Sorted Z.le sorted) by (by apply StronglySorted_Sorted).
  repeat split; try done.
  - apply StronglySorted_le_NoDup_lt; [done|]. by rewrite Hperm.
  - by apply is_sorted_Sorted.
Qed.

Lemma quicksort_steps_sorts_witness :
  NoDup [30; 10; 20] ∧
  ∃ ss last,
    quicksort_steps [30; 10; 20] = Ok (ss ++ [last])
    ∧ array last ≡ₚ [30; 10; 20]
    ∧ Sorted Z.le (array last)
    ∧ StronglySorted Z.lt (array last)
    ∧ is_sorted (array last) = true
    ∧ Forall (λ s, array s ≡ₚ [30; 10; 20]) ss.
Proof.
  assert (Hnd : NoDup [30; 10; 20]) by compute_done.
  split; [exact Hnd|]. exact (quicksort_steps_sorts [30; 10; 20] Hnd).
Defined.

(** C2. For every input the generator produces exactly one Step with
    action "done", and it is the last one. *)
Theorem quicksort_steps_one_done_last (data : list Z) :
  ∃ ss last,
    quicksort_steps data = Ok (ss ++ [last])
    ∧ action last = "done"
    ∧ Forall (λ s, action s ≠ "done") ss
    ∧ length (filter (λ s, action s = "done") (ss ++ [last])) = 1%nat.
Proof.
  destruct (quicksort_steps_spec data) as (ss & sorted & Hrun & _ & _ & Hin & _).
  exists ss, (mkStep sorted None None None "done").
  assert (Hnot : Forall (λ s, action s ≠ "done") ss).
  { eapply Forall_impl; [exact Hin|]. intros s. apply inner_step_not_done. }
  repeat split; try done.
  rewrite filter_app, length_app.
  replace (filter (λ s, action s = "done") ss) with (@nil Step); [done|].
  symmetry. clear Hrun Hin. induction Hnot as [|s ss Hs _ IH]; [done|].
  by rewrite filter_cons_False.
Qed.

(** C6 as stated fails: on [30, 10, 20] the first "compare" Step has
    [i = -1], which is not a position of its array. *)
Lemma compare_boundary_before_array :
  ∃ steps,
    quicksort_steps [30; 10; 20] = Ok steps ∧ ¬ Forall indices_valid steps.
Proof.
  eexists. split; [vm_compute; reflexivity|].
  intros H. apply Forall_cons in H as [_ H]. apply Forall_cons in H as [[Hi _] _].
  simpl in Hi. lia.
Qed.

(** C6, amended. In every Step, [j] and [pivot_index] are null or positions
    of the Step's array; so is [i], except that in a "compare" Step [i] is the
    Lomuto boundary, between [-1] and [len - 2].  The last Step is "done" and
    carries no indices. *)
Theorem quicksort_steps_indices_in_bounds (data : list Z) :
  ∃ ss last,
    quicksort_steps data = Ok (ss ++ [last])
    ∧ Forall indices_in_bounds (ss ++ [last])
    ∧ Forall (λ s, action s ≠ "compare" → indices_valid s) (ss ++ [last])
    ∧ action last = "done" ∧ carries_no_indices last.
Proof.
  destruct (quicksort_steps_spec data) as (ss & sorted & Hrun & _ & _ & Hin & Hsnap).
  exists ss, (mkStep sorted None None None "done").
  assert (Hb : Forall indices_in_bounds ss).
  { rewrite Forall_forall in Hin, Hsnap |- *. intros s Hs.
    apply (inner_step_in_bounds (Z.of_nat (length data))); [|by apply Hin].
    by rewrite (Hsnap s Hs). }
  repeat split; try done.
  - apply Forall_app. split; [done|]. by repeat constructor.
  - apply Forall_app. split; [|by repeat constructor].
    eapply Forall_impl; [exact Hb|]. intros s. unfold indices_in_bounds, indices_valid.
    intros (Hi & Hj & Hp) Hne. by rewrite decide_False in Hi.
Qed.

(** C8. A list of length 0 or 1 yields the "done" Step alone, showing the
    input; the generator does not fail. *)
Theorem quicksort_steps_degenerate (data : list Z) :
  (length data <= 1)%nat →
  quicksort_steps data = Ok [mkStep data None None None "done"].
Proof.
  intros Hlen. destruct data as [|x [|y data]]; [done|done|simpl in Hlen; lia].
Qed.

Lemma quicksort_steps_degenerate_witness :
  (length [7] <= 1)%nat ∧
  quicksort_steps [7] = Ok [mkStep [7] None None None "done"].
Proof.
  split; [simpl; lia|]. apply (quicksort_steps_degenerate [7]). simpl. lia.
Defined.

Lemma py_index_lt (n : nat) (k : Z) (p : nat) :
  py_index n k = Some p → (p < n)%nat.
Proof.
  unfold py_index. intros H.
  destruct ((0 <=? k) && (k <? Z.of_nat n)) eqn:E1.
  - apply andb_prop in E1 as [H1 H2]. inversion H. lia.
  - destruct ((- Z.of_nat n <=? k) && (k <? 0)) eqn:E2; [|done].
    apply andb_prop in E2 as [H1 H2]. inversion H. lia.
Qed.

(** Whatever the two subscripts, a successful [arr[a], arr[b] = arr[b],
    arr[a]] yields nothing and leaves at each subscript what stood at the
    other. *)
Lemma swap_items_exchanges (a b : Z) (l l' : list Z) (u : unit) (ss : list Step) :
  swap_items a b l = Ok (u, l', ss) →
  ss = []
  ∧ length l' = length l
  ∧ list_getitem l' a = list_getitem l b
  ∧ list_getitem l' b = list_getitem l a.
Proof.
  unfold swap_items, gbind, getitem, setitem, list_getitem, list_setitem.
  destruct (py_index (length l) b) as [pb|] eqn:Hb; simpl; [|done].
  destruct (l !! pb) as [x|] eqn:Hx; simpl; [|done].
  destruct (py_index (length l) a) as [pa|] eqn:Ha; simpl; [|done].
  destruct (l !! pa) as [y|] eqn:Hy; simpl; [|done].
  rewrite Ha. simpl. rewrite length_insert, Hb. simpl.
  intros H. inversion H; subst. clear H.
  rewrite !length_insert, Ha, Hb. simpl.
  apply py_index_lt in Ha, Hb.
  repeat split.
  - destruct (decide (pa = pb)) as [->|Hne].
    + rewrite list_lookup_insert_eq by (by rewrite length_insert). congruence.
    + rewrite list_lookup_insert_ne by done.
      by rewrite list_lookup_insert_eq.
  - by rewrite list_lookup_insert_eq by (by rewrite length_insert).
Qed.

(** C7, within one pass.  One iteration of the scan loop yields a "swap"
    Step only after exchanging [arr[i + 1]] and [arr[j]] with [i + 1 != j];
    when the incremented boundary equals [j] the array is left as it is and
    no "swap" Step is yielded.  Over the whole run, every "swap" Step names
    two distinct positions of its array. *)
Theorem swap_step_only_on_exchange :
  (∀ (pivot hi jj ii : Z) (l l' : list Z) (r : Z) (ss : list Step),
     partition_body pivot hi jj ii l = Ok (r, l', ss) →
     (ii + 1 = jj → l' = l ∧ Forall (λ s, action s ≠ "swap") ss)
     ∧ Forall (λ s, action s = "swap" →
                 ii + 1 ≠ jj ∧ r = ii + 1
                 ∧ i s = Some (ii + 1) ∧ j s = Some jj ∧ array s = l'
                 ∧ list_getitem l' (ii + 1) = list_getitem l jj
                 ∧ list_getitem l' jj = list_getitem l (ii + 1)) ss)
  ∧ (∀ data : list Z,
       ∃ steps, quicksort_steps data = Ok steps ∧ Forall swap_is_exchange steps).
Proof.
  split.
  - intros pivot hi jj ii l l' r ss.
    unfold partition_body, gbind at 1 2 3, copy, yield.
    destruct (getitem jj l) as [[[x l1] ss1]| |] eqn:Hget; [|done|done].
    assert (l1 = l ∧ ss1 = []) as [-> ->].
    { unfold getitem in Hget. destruct (list_getitem l jj); [|done]. by inversion Hget. }
    destruct (x <=? pivot).
    + destruct (ii + 1 =? jj) eqn:Heq; simpl.
      * apply Z.eqb_eq in Heq. unfold gret. intros H. inversion H; subst.
        split; [intros _; split; [done|]|]; by repeat constructor.
      * apply Z.eqb_neq in Heq. unfold gbind, copy, yield, gret.
        destruct (swap_items (ii + 1) jj l) as [[[u l2] ss2]| |] eqn:Hswap; [|done|done].
        apply swap_items_exchanges in Hswap as (-> & _ & H1 & H2).
        simpl. intros H. inversion H; subst.
        split; [done|]. by repeat constructor.
    + unfold gret. simpl. intros H. inversion H; subst.
      split; [intros _; split; [done|]|]; by repeat constructor.
  - intros data.
    destruct (quicksort_steps_spec data) as (ss & sorted & Hrun & _ & _ & Hin & Hsnap).
    eexists. split; [exact Hrun|].
    apply Forall_app. split; [|by repeat constructor].
    rewrite Forall_forall in Hin, Hsnap |- *. intros s Hs.
    apply (inner_step_in_bounds (Z.of_nat (length data))); [|by apply Hin].
    by rewrite (Hsnap s Hs).
Qed.

Lemma swap_step_only_on_exchange_witness :
  partition_body 20 2 1 (-1) [30; 10; 20]
  = Ok (0, [10; 30; 20],
        [mkStep [30; 10; 20] (Some (-1)) (Some 1) (Some 2) "compare";
         mkStep [10; 30; 20] (Some 0) (Some 1) (Some 2) "swap"])
  ∧ (-1 + 1 = 1 →
     [10; 30; 20] = [30; 10; 20]
     ∧ Forall (λ s, action s ≠ "swap")
         [mkStep [30; 10; 20] (Some (-1)) (Some 1) (Some 2) "compare";
          mkStep [10; 30; 20] (Some 0) (Some 1) (Some 2) "swap"])
  ∧ Forall (λ s, action s = "swap" →
              -1 + 1 ≠ 1 ∧ 0 = -1 + 1
              ∧ i s = Some (-1 + 1) ∧ j s = Some 1 ∧ array s = [10; 30; 20]
              ∧ list_getitem [10; 30; 20] (-1 + 1) = list_getitem [30; 10; 20] 1
              ∧ list_getitem [10; 30; 20] 1 = list_getitem [30; 10; 20] (-1 + 1))
      [mkStep [30; 10; 20] (Some (-1)) (Some 1) (Some 2) "compare";
       mkStep [10; 30; 20] (Some 0) (Some 1) (Some 2) "swap"].
Proof.
  split; [reflexivity|].
  apply (proj1 swap_step_only_on_exchange 20 2 1 (-1) [30; 10; 20]).
  reflexivity.
Defined.

(** ** The player's clicks *)

(** C9 as stated fails: a selection can be pending when the finish check
    of the main loop stamps the player's finish time.  Here the shuffle left
    the array sorted and the first frame brings a click on bar 3; the next
    click on that bar is ignored and the selection stays. *)
Lemma click_ignored_once_finished :
  ∃ g g',
    run_ops [Click (Some 3); Tick 0.015625; CheckFinished; Draw]
      (init second_clock [10; 15; 20; 25; 30; 35; 40; 45; 50; 55; 60; 65]) = Ok g
    ∧ selected (player g) = Some 3
    ∧ _index_at_pos (Some 3) (arr (player g)) = Some 3
    ∧ _handle_click (Some 3) g = Ok g'
    ∧ selected (player g') = Some 3.
Proof.
  eexists _, _.
  split; [vm_compute; reflexivity|].
  split; [reflexivity|]. split; [reflexivity|].
  split; [vm_compute; reflexivity|]. reflexivity.
Qed.

(** C9, amended. While the player has not finished, a click on the bar that
    is already selected clears the selection and changes nothing else. *)
Theorem same_index_click_clears_selection (g : Game) (hit : option Z) (s : Z) :
  selected (player g) = Some s →
  finish_time (player g) = None →
  _index_at_pos hit (arr (player g)) = Some s →
  ∃ g',
    _handle_click hit g = Ok g'
    ∧ g' = with_player (with_selected None (player g)) g
    ∧ selected (player g') = None
    ∧ arr (player g') = arr (player g)
    ∧ moves (player g') = moves (player g)
    ∧ finish_time (player g') = finish_time (player g)
    ∧ start_time (player g') = start_time (player g)
    ∧ algo g' = algo g
    ∧ _gen g' = _gen g
    ∧ clock_reads g' = clock_reads g.
Proof.
  intros Hsel Hfin Hidx. eexists. split.
  - unfold _handle_click. rewrite Hidx, Hfin, Hsel. simpl.
    rewrite Z.eqb_refl. simpl. reflexivity.
  - by repeat split.
Qed.

Lemma same_index_click_clears_selection_witness :
  selected (player game_with_selection) = Some 1 ∧
  finish_time (player game_with_selection) = None ∧
  _index_at_pos (Some 1) (arr (player game_with_selection)) = Some 1 ∧
  ∃ g',
    _handle_click (Some 1) game_with_selection = Ok g'
    ∧ g' = with_player (with_selected None (player game_with_selection))
             game_with_selection
    ∧ selected (player g') = None
    ∧ arr (player g') = arr (player game_with_selection)
    ∧ moves (player g') = moves (player game_with_selection)
    ∧ finish_time (player g') = finish_time (player game_with_selection)
    ∧ start_time (player g') = start_time (player game_with_selection)
    ∧ algo g' = algo game_with_selection
    ∧ _gen g' = _gen game_with_selection
    ∧ clock_reads g' = clock_reads game_with_selection.
Proof.
  split; [reflexivity|]. split; [reflexivity|]. split; [reflexivity|].
  apply (same_index_click_clears_selection game_with_selection (Some 1) 1);
    reflexivity.
Defined.

(** ** Finish times *)

Lemma drain_player (gen : list Step) :
  ∀ g, player (drain gen g) = player g.
Proof.
  induction gen as [|step gen IH]; intros g; simpl.
  - destruct (step_interval <=? _algo_step_timer g)%float; [|done].
    by destruct (is_None (finish_time (algo g))).
  - destruct (step_interval <=? _algo_step_timer g)%float; [|done].
    rewrite IH.
    by destruct (bool_decide (action step = "done") && _).
Qed.

(** Inside the pacing loop a finish time that is set stays as it is, also
    when the generator is found exhausted on a later turn. *)
Lemma drain_finish_time_kept (gen : list Step) :
  ∀ g t, finish_time (algo g) = Some t → finish_time (algo (drain gen g)) = Some t.
Proof.
  induction gen as [|step gen IH]; intros g t Hfin; simpl.
  - destruct (step_interval <=? _algo_step_timer g)%float; [|done].
    simpl. by rewrite Hfin.
  - destruct (step_interval <=? _algo_step_timer g)%float; [|done].
    apply IH. simpl. rewrite Hfin. simpl.
    by rewrite andb_false_r.
Qed.

Lemma handle_click_algo (hit : option Z) (g g' : Game) :
  _handle_click hit g = Ok g' → algo g' = algo g.
Proof.
  unfold _handle_click.
  destruct (_index_at_pos hit (arr (player g))) as [idx|]; [|by inversion 1].
  destruct (is_not_None (finish_time (player g))); [by inversion 1|].
  destruct (selected (player g)) as [sel|]; [|by inversion 1].
  destruct (negb (idx =? sel)); [|by inversion 1].
  destruct (swap_items sel idx (arr (player g))) as [[[u a] ss]| |]; [|done|done].
  simpl. destruct (is_sorted a && is_None (finish_time (player g)));
    by inversion 1.
Qed.

Lemma handle_click_finish_time_kept (hit : option Z) (g g' : Game) (t : float) :
  _handle_click hit g = Ok g' →
  finish_time (player g) = Some t → finish_time (player g') = Some t.
Proof.
  unfold _handle_click. intros H Hfin.
  destruct (_index_at_pos hit (arr (player g))) as [idx|]; [|by inversion H; subst].
  rewrite Hfin in H. simpl in H.
  by inversion H; subst.
Qed.

Lemma run_op_finish_time_kept (sd : Side) (op : Op) (g g' : Game) (t : float) :
  run_op op g = Ok g' →
  finish_time (side_of sd g) = Some t → finish_time (side_of sd g') = Some t.
Proof.
  destruct op as [hit| |dt| |]; simpl; intros Hrun Hfin.
  - destruct sd; simpl in *.
    + by apply (handle_click_finish_time_kept hit g).
    + by rewrite (handle_click_algo hit g g' Hrun).
  - inversion Hrun; subst. by destruct sd.
  - inversion Hrun; subst. unfold update_algo.
    destruct (is_not_None (finish_time (algo g)) || paused_algo g) eqn:E;
      [done|].
    destruct sd; simpl in *.
    + by rewrite drain_player.
    + by apply drain_finish_time_kept.
  - inversion Hrun; subst. unfold check_player_finished.
    destruct sd; simpl in *.
    + by rewrite Hfin.
    + by destruct (is_None (finish_time (player g)) && _).
  - inversion Hrun; subst. unfold draw.
    destruct (_current_step g); by destruct sd.
Qed.

(** C5. Once a side's finish time is set, no click, pause toggle, pacing
    tick, finish check or redraw changes it: after any sequence of such
    operations (anything short of a reset) it still holds the same stamp. *)
Theorem finish_time_set_once (sd : Side) (ops : list Op) (g g' : Game) (t : float) :
  run_ops ops g = Ok g' →
  finish_time (side_of sd g) = Some t →
  finish_time (side_of sd g') = Some t.
Proof.
  revert g. induction ops as [|op ops IH]; intros g Hrun Hfin; simpl in Hrun.
  - by inversion Hrun; subst.
  - destruct (run_op op g) as [g1| |] eqn:Hop; [|done|done].
    apply (IH g1 Hrun). by apply (run_op_finish_time_kept sd op g).
Qed.

Lemma finish_time_set_once_witness :
  ∃ g',
    run_ops [Click (Some 0); Click (Some 2); Tick 0.125; CheckFinished; Draw]
      game_player_finished = Ok g'
    ∧ finish_time (side_of PlayerSide game_player_finished) = Some 3%float
    ∧ finish_time (side_of PlayerSide g') = Some 3%float.
Proof.
  eexists. split; [vm_compute; reflexivity|]. split; [reflexivity|].
  apply (finish_time_set_once PlayerSide
           [Click (Some 0); Click (Some 2); Tick 0.125; CheckFinished; Draw]
           game_player_finished _ 3%float); [vm_compute; reflexivity|reflexivity].
Defined.

(** ** The player's array *)

Lemma lookup_split_two (l : list Z) (p q : nat) (y x : Z) :
  (p < q)%nat → l !! p = Some y → l !! q = Some x →
  ∃ l1 l2 l3,
    l = l1 ++ y :: l2 ++ x :: l3 ∧ length l1 = p ∧ (p + 1 + length l2)%nat = q.
Proof.
  intros Hpq Hp Hq.
  pose proof (take_drop_middle l p y Hp) as H1.
  assert (Hq' : drop (S p) l !! (q - S p)%nat = Some x).
  { rewrite lookup_drop. rewrite <- Hq. f_equal. lia. }
  pose proof (take_drop_middle _ _ _ Hq') as H2.
  exists (take p l), (take (q - S p) (drop (S p) l)), (drop (S (q - S p)) (drop (S p) l)).
  split; [by rewrite H2, H1|].
  apply lookup_lt_Some in Hp, Hq'.
  rewrite !length_take. rewrite length_drop in Hq' |- *. lia.
Qed.

(** Exchanging two distinct positions, the larger subscript first. *)
Lemma swap_items_middle_rev (l l1 l2 l3 : list Z) (x y : Z) (a b : Z) :
  l = l1 ++ x :: l2 ++ y :: l3 →
  a = Z.of_nat (length l1 + 1 + length l2) →
  b = Z.of_nat (length l1) →
  swap_items a b l = Ok (tt, l1 ++ y :: l2 ++ x :: l3, []).
Proof.
  intros Hl Ha Hb. unfold swap_items, gbind.
  rewrite (getitem_middle l l1 (l2 ++ y :: l3) x b) by done.
  rewrite (getitem_middle l (l1 ++ x :: l2) l3 y a).
  2: { by rewrite Hl, <- app_assoc. }
  2: { rewrite Ha, length_app. simpl. lia. }
  rewrite (setitem_middle l (l1 ++ x :: l2) l3 y x a).
  2: { by rewrite Hl, <- app_assoc. }
  2: { rewrite Ha, length_app. simpl. lia. }
  rewrite (setitem_middle ((l1 ++ x :: l2) ++ x :: l3) l1 (l2 ++ x :: l3) x y b).
  2: { by rewrite <- app_assoc. }
  2: { done. }
  reflexivity.
Qed.

(** Two distinct positions of a list can always be exchanged, and the
    result is a permutation of the list. *)
Lemma swap_items_positions (l : list Z) (a b : Z) :
  0 <= a < Z.of_nat (length l) → 0 <= b < Z.of_nat (length l) → a ≠ b →
  ∃ l', swap_items a b l = Ok (tt, l', []) ∧ l' ≡ₚ l.
Proof.
  intros Ha Hb Hne.
  destruct (lookup_lt_is_Some_2 l (Z.to_nat a)) as [y Hy]; [lia|].
  destruct (lookup_lt_is_Some_2 l (Z.to_nat b)) as [x Hx]; [lia|].
  destruct (Z.lt_ge_cases a b) as [Hlt|Hge].
  - destruct (lookup_split_two l (Z.to_nat a) (Z.to_nat b) y x)
      as (l1 & l2 & l3 & Hl & H1 & H2); [lia|done|done|].
    exists (l1 ++ x :: l2 ++ y :: l3). split.
    + apply (swap_items_middle l l1 l2 l3 y x); [done|lia|lia].
    + rewrite Hl. solve_Permutation.
  - destruct (lookup_split_two l (Z.to_nat b) (Z.to_nat a) x y)
      as (l1 & l2 & l3 & Hl & H1 & H2); [lia|done|done|].
    exists (l1 ++ y :: l2 ++ x :: l3). split.
    + apply (swap_items_middle_rev l l1 l2 l3 x y); [done|lia|lia].
    + rewrite Hl. solve_Permutation.
Qed.

Lemma index_at_pos_in_range (hit : option Z) (l : list Z) (idx : Z) :
  _index_at_pos hit l = Some idx → 0 <= idx < Z.of_nat (length l).
Proof.
  unfold _index_at_pos. destruct hit as [k|]; [|done].
  destruct (Z.of_nat (length l) =? 0) eqn:E; [done|].
  apply Z.eqb_neq in E. intros H. inversion H. lia.
Qed.

Lemma handle_click_player_array (base : list Z) (hit : option Z) (g : Game) :
  player_array_ok base g →
  ∃ g', _handle_click hit g = Ok g' ∧ player_array_ok base g'.
Proof.
  intros [Hperm Hsel]. unfold _handle_click.
  destruct (_index_at_pos hit (arr (player g))) as [idx|] eqn:Hidx.
  2: { by exists g. }
  apply index_at_pos_in_range in Hidx.
  destruct (is_not_None (finish_time (player g))).
  { by exists g. }
  destruct (selected (player g)) as [sel|] eqn:Hs.
  2: { eexists. split; [reflexivity|]. split; [done|].
       simpl. intros s Heq. by inversion Heq; subst. }
  specialize (Hsel sel eq_refl).
  destruct (idx =? sel) eqn:Heq; simpl.
  { eexists. split; [reflexivity|]. by split. }
  apply Z.eqb_neq in Heq.
  destruct (swap_items_positions (arr (player g)) sel idx) as (l' & Hswap & Hl');
    [done|done|done|].
  rewrite Hswap. simpl.
  eexists. split; [reflexivity|].
  destruct (is_sorted l' && is_None (finish_time (player g)));
    unfold player_array_ok, stamp_player; simpl;
    (split; [by transitivity (arr (player g))|done]).
Qed.

Lemma run_op_player_array (base : list Z) (op : Op) (g : Game) :
  player_array_ok base g →
  ∃ g', run_op op g = Ok g' ∧ player_array_ok base g'.
Proof.
  intros Hok. destruct op as [hit| |dt| |]; simpl.
  - by apply handle_click_player_array.
  - by eexists.
  - eexists. split; [reflexivity|]. unfold player_array_ok, update_algo.
    destruct (is_not_None (finish_time (algo g)) || paused_algo g); [done|].
    by rewrite drain_player.
  - eexists. split; [reflexivity|]. unfold check_player_finished.
    by destruct (is_None (finish_time (player g)) && _).
  - eexists. split; [reflexivity|]. unfold draw.
    by destruct (_current_step g).
Qed.

Lemma run_ops_player_array (base : list Z) (ops : list Op) :
  ∀ g, player_array_ok base g →
       ∃ g', run_ops ops g = Ok g' ∧ player_array_ok base g'.
Proof.
  induction ops as [|op ops IH]; intros g Hok; simpl.
  - by exists g.
  - destruct (run_op_player_array base op g Hok) as (g1 & -> & Hok1).
    by apply IH.
Qed.

Lemma reset_player_array (base : list Z) (g : Game) :
  player_array_ok base (reset base g).
Proof. split; [done|]. by intros s. Qed.

(** C10. After a reset on [base], whatever the player clicks (and whatever
    else the main loop does in between), no operation fails and the player's
    array stays a permutation of [base]. *)
Theorem player_array_permutation (base : list Z) (g : Game) (ops : list Op) :
  ∃ g', run_ops ops (reset base g) = Ok g' ∧ arr (player g') ≡ₚ base.
Proof.
  destruct (run_ops_player_array base ops (reset base g) (reset_player_array base g))
    as (g' & Hrun & Hperm & _).
  by exists g'.
Qed.

(** ** Pacing *)

(** C4 as stated fails: [0.5 + 0.5] and [1.0] are the same total, but one
    tick of a second applies 24 Steps while two ticks of half a second apply
    11 and 12.  The accumulator is a double and [1/24] is not one: after 11
    subtractions from [0.5] what is left is just below the interval. *)
Lemma pacing_depends_on_partition :
  (0.5 + 0.5 = 1)%float ∧
  ∃ g1 g2,
    run_ops [Tick 1] (init second_clock shuffled12) = Ok g1
    ∧ run_ops [Tick 0.5; Tick 0.5] (init second_clock shuffled12) = Ok g2
    ∧ finish_time (algo g1) = None ∧ finish_time (algo g2) = None
    ∧ steps_consumed shuffled12 g1 = 24%nat
    ∧ steps_consumed shuffled12 g2 = 23%nat
    ∧ _gen g1 ≠ _gen g2.
Proof.
  split; [reflexivity|].
  eexists _, _.
  split; [vm_compute; reflexivity|].
  split; [vm_compute; reflexivity|].
  split; [reflexivity|]. split; [reflexivity|].
  split; [vm_compute; reflexivity|].
  split; [vm_compute; reflexivity|].
  intros H. apply (f_equal length) in H. vm_compute in H. discriminate H.
Qed.

Lemma handle_click_pacing_frame (hit : option Z) (g g' : Game) :
  _handle_click hit g = Ok g' →
  _gen g' = _gen g ∧ _current_step g' = _current_step g
  ∧ paused_algo g' = paused_algo g.
Proof.
  unfold _handle_click.
  destruct (_index_at_pos hit (arr (player g))) as [idx|]; [|by inversion 1].
  destruct (is_not_None (finish_time (player g))); [by inversion 1|].
  destruct (selected (player g)) as [sel|]; [|by inversion 1].
  destruct (negb (idx =? sel)); [|by inversion 1].
  destruct (swap_items sel idx (arr (player g))) as [[[u a] ss]| |]; [|done|done].
  simpl. destruct (is_sorted a && is_None (finish_time (player g)));
    by inversion 1.
Qed.

Lemma drop_cons_inv {A : Type} (l : list A) (k : nat) (x : A) (l' : list A) :
  drop k l = x :: l' →
  drop (S k) l = l' ∧ last (take (S k) l) = Some x.
Proof.
  intros H.
  assert (Hx : l !! k = Some x).
  { replace k with (k + 0)%nat by lia. rewrite <- lookup_drop. by rewrite H. }
  split.
  - rewrite (drop_S l x k Hx) in H. by inversion H.
  - rewrite (take_S_r l k x Hx). apply last_snoc.
Qed.

(** The pacing loop takes the generator's Steps in order: from a state that
    has applied a prefix it reaches a state that has applied a prefix. *)
Lemma drain_applied_prefix (base : list Z) (gen : list Step) :
  ∀ g k, _gen g = gen → applied_prefix base k g →
         ∃ k', (k <= k')%nat ∧ applied_prefix base k' (drain gen g).
Proof.
  induction gen as [|step gen IH]; intros g k Hgen Hpre; simpl.
  - destruct (step_interval <=? _algo_step_timer g)%float; [|by exists k].
    exists k. split; [done|].
    by destruct (is_None (finish_time (algo g))).
  - destruct (step_interval <=? _algo_step_timer g)%float; [|by exists k].
    destruct Hpre as (Hg & Hc & Ha). rewrite Hgen in Hg.
    symmetry in Hg. apply drop_cons_inv in Hg as [Hdrop Hlast].
    match goal with |- ∃ k', _ ∧ applied_prefix _ _ (drain _ ?g1) =>
      destruct (IH g1 (S k)) as (k' & Hle & Hk') end.
    + by destruct (bool_decide (action step = "done") && _).
    + unfold applied_prefix. rewrite Hlast, Hdrop.
      by destruct (bool_decide (action step = "done") && _).
    + exists k'. split; [lia|done].
Qed.

Lemma draw_frame (g : Game) :
  player (snd (draw g)) = player g
  ∧ algo (snd (draw g)) = algo g
  ∧ _gen (snd (draw g)) = _gen g
  ∧ _current_step (snd (draw g)) = _current_step g
  ∧ paused_algo (snd (draw g)) = paused_algo g.
Proof. unfold draw. by destruct (_current_step g) eqn:E. Qed.

Lemma run_op_applied_prefix (base : list Z) (op : Op) (g g' : Game) (k : nat) :
  run_op op g = Ok g' → applied_prefix base k g →
  ∃ k', (k <= k')%nat ∧ applied_prefix base k' g'.
Proof.
  destruct op as [hit| |dt| |]; unfold run_op; intros Hrun Hpre.
  - exists k. split; [done|]. unfold applied_prefix.
    destruct (handle_click_pacing_frame hit g g' Hrun) as (-> & -> & _).
    by rewrite (handle_click_algo hit g g' Hrun).
  - inversion Hrun; subst. by exists k.
  - inversion Hrun; subst. unfold update_algo.
    destruct (is_not_None (finish_time (algo g)) || paused_algo g); [by exists k|].
    by apply drain_applied_prefix.
  - inversion Hrun; subst. exists k. split; [done|]. unfold check_player_finished.
    by destruct (is_None (finish_time (player g)) && _).
  - assert (g' = snd (draw g)) as -> by congruence.
    exists k. split; [done|].
    destruct (draw_frame g) as (_ & Ha' & Hg' & Hc' & _).
    unfold applied_prefix. by rewrite Ha', Hg', Hc'.
Qed.

Lemma run_ops_applied_prefix (base : list Z) (ops : list Op) :
  ∀ g g' k, run_ops ops g = Ok g' → applied_prefix base k g →
            ∃ k', (k <= k')%nat ∧ applied_prefix base k' g'.
Proof.
  induction ops as [|op ops IH]; intros g g' k Hrun Hpre; simpl in Hrun.
  - inversion Hrun; subst. by exists k.
  - destruct (run_op op g) as [g1| |] eqn:Hop; [|done|done].
    destruct (run_op_applied_prefix base op g g1 k Hop Hpre) as (k1 & Hle1 & Hk1).
    destruct (IH g1 g' k1 Hrun Hk1) as (k' & Hle & Hk').
    exists k'. split; [lia|done].
Qed.

Lemma with_paused_algo_same (g : Game) (b : bool) :
  paused_algo g = b → with_paused_algo b g = g.
Proof. destruct g. simpl. by intros ->. Qed.

Lemma drain_paused_algo (gen : list Step) :
  ∀ g, paused_algo (drain gen g) = paused_algo g.
Proof.
  induction gen as [|step gen IH]; intros g; simpl.
  - destruct (step_interval <=? _algo_step_timer g)%float; [|done].
    by destruct (is_None (finish_time (algo g))).
  - destruct (step_interval <=? _algo_step_timer g)%float; [|done].
    rewrite IH.
    by destruct (bool_decide (action step = "done") && _).
Qed.

Lemma update_algo_paused_algo (dt : float) (g : Game) :
  paused_algo (update_algo dt g) = paused_algo g.
Proof.
  unfold update_algo.
  destruct (is_not_None (finish_time (algo g)) || paused_algo g); [done|].
  by rewrite drain_paused_algo.
Qed.

(** A tick that arrives while paused changes nothing at all. *)
Lemma update_algo_while_paused (dt : float) (g : Game) :
  paused_algo g = true → update_algo dt g = g.
Proof. intros Hp. unfold update_algo. by rewrite Hp, orb_true_r. Qed.

Lemma handle_click_with_paused_algo (hit : option Z) (b : bool) (g : Game) :
  _handle_click hit (with_paused_algo b g)
  = outcome_map (with_paused_algo b) (_handle_click hit g).
Proof.
  unfold _handle_click. simpl.
  destruct (_index_at_pos hit (arr (player g))) as [idx|]; [|done].
  destruct (is_not_None (finish_time (player g))); [done|].
  destruct (selected (player g)) as [sel|]; [|done].
  destruct (negb (idx =? sel)); [|done].
  destruct (swap_items sel idx (arr (player g))) as [[[u a] ss]| |]; [|done|done].
  simpl. by destruct (is_sorted a && is_None (finish_time (player g))).
Qed.

Lemma run_op_with_paused_algo (op : Op) (b : bool) (g : Game) :
  (∀ dt, op ≠ Tick dt) → op ≠ TogglePause →
  run_op op (with_paused_algo b g) = outcome_map (with_paused_algo b) (run_op op g)
  ∧ ∀ g', run_op op g = Ok g' → paused_algo g' = paused_algo g.
Proof.
  intros Htick Htoggle. destruct op as [hit| |dt| |]; unfold run_op.
  - split; [apply handle_click_with_paused_algo|].
    intros g' Hrun. by apply handle_click_pacing_frame in Hrun as (_ & _ & ->).
  - done.
  - by destruct (Htick dt).
  - split.
    + unfold check_player_finished. simpl.
      by destruct (is_None (finish_time (player g)) && _).
    + intros g' Hrun. assert (g' = check_player_finished g) as -> by congruence.
      unfold check_player_finished.
      by destruct (is_None (finish_time (player g)) && _).
  - split.
    + unfold draw. simpl. by destruct (_current_step g).
    + intros g' Hrun. assert (g' = snd (draw g)) as -> by congruence.
      by destruct (draw_frame g) as (_ & _ & _ & _ & ->).
Qed.

(** Pausing only delays: a session with pauses ends in the state of the
    same session without the pause toggles and without the ticks that
    arrived while paused, up to the pause flag itself. *)
Lemma run_ops_never_pausing (ops : list Op) :
  ∀ g,
    run_ops (never_pausing (paused_algo g) ops) (with_paused_algo false g)
    = outcome_map (with_paused_algo false) (run_ops ops g).
Proof.
  induction ops as [|op ops IH]; intros g; [done|].
  destruct op as [hit| |dt| |].
  - change (never_pausing (paused_algo g) (Click hit :: ops))
      with (Click hit :: never_pausing (paused_algo g) ops).
    destruct (run_op_with_paused_algo (Click hit) false g) as [Hop Hflag]; [done|done|].
    cbn [run_ops]. rewrite Hop.
    destruct (run_op (Click hit) g) as [g1| |] eqn:Hg1; [|done|done].
    cbn [outcome_map]. rewrite <- (Hflag g1 eq_refl). apply IH.
  - change (never_pausing (paused_algo g) (TogglePause :: ops))
      with (never_pausing (paused_algo (toggle_pause g)) ops).
    cbn [run_ops run_op]. rewrite <- IH. by destruct g.
  - cbn [run_ops run_op]. destruct (paused_algo g) eqn:Hp.
    + change (never_pausing true (Tick dt :: ops)) with (never_pausing true ops).
      rewrite update_algo_while_paused by done. rewrite <- Hp. apply IH.
    + change (never_pausing false (Tick dt :: ops))
        with (Tick dt :: never_pausing false ops).
      cbn [run_ops run_op]. rewrite (with_paused_algo_same g false Hp).
      rewrite <- IH. rewrite update_algo_paused_algo, Hp.
      by rewrite with_paused_algo_same by (by rewrite update_algo_paused_algo).
  - change (never_pausing (paused_algo g) (CheckFinished :: ops))
      with (CheckFinished :: never_pausing (paused_algo g) ops).
    destruct (run_op_with_paused_algo CheckFinished false g) as [Hop Hflag]; [done|done|].
    cbn [run_ops]. rewrite Hop.
    destruct (run_op CheckFinished g) as [g1| |] eqn:Hg1; [|done|done].
    cbn [outcome_map]. rewrite <- (Hflag g1 eq_refl). apply IH.
  - change (never_pausing (paused_algo g) (Draw :: ops))
      with (Draw :: never_pausing (paused_algo g) ops).
    destruct (run_op_with_paused_algo Draw false g) as [Hop Hflag]; [done|done|].
    cbn [run_ops]. rewrite Hop.
    destruct (run_op Draw g) as [g1| |] eqn:Hg1; [|done|done].
    cbn [outcome_map]. rewrite <- (Hflag g1 eq_refl). apply IH.
Qed.

Lemma reset_applied_prefix (base : list Z) (g : Game) :
  applied_prefix base 0 (reset base g).
Proof. by repeat split. Qed.

(** C4, amended.  After a reset on [base], whatever the ticks and however
    slow the frames, the Steps consumed and applied are a prefix of the
    generator's sequence, taken in order with none skipped: the generator
    holds the rest, the current Step is the last of the prefix and the
    displayed array is its array.  How long the prefix is follows from the
    double-precision accumulator, not from the total of the [dt]s alone.
    Pausing only delays: with the pause toggles and the ticks received while
    paused left out, the session ends in the same state, pause flag aside. *)
Theorem pacing_applies_prefix_pause_only_delays :
  (∀ (base : list Z) (g : Game) (ops : list Op),
     ∃ g' k, run_ops ops (reset base g) = Ok g' ∧ applied_prefix base k g')
  ∧ (∀ (ops : list Op) (g : Game),
       run_ops (never_pausing (paused_algo g) ops) (with_paused_algo false g)
       = outcome_map (with_paused_algo false) (run_ops ops g))
  ∧ (∀ (dt : float) (g : Game), paused_algo g = true → update_algo dt g = g).
Proof.
  split; [|split].
  - intros base g ops.
    destruct (run_ops_player_array base ops (reset base g) (reset_player_array base g))
      as (g' & Hrun & _).
    destruct (run_ops_applied_prefix base ops (reset base g) g' 0%nat Hrun
                (reset_applied_prefix base g)) as (k & _ & Hk).
    by exists g', k.
  - intros ops g. apply run_ops_never_pausing.
  - apply update_algo_while_paused.
Qed.

Lemma pacing_applies_prefix_pause_only_delays_witness :
  paused_algo game_paused = true ∧ update_algo 0.5 game_paused = game_paused.
Proof.
  split; [reflexivity|].
  apply (proj2 (proj2 pacing_applies_prefix_pause_only_delays) 0.5%float game_paused).
  reflexivity.
Defined.

(** ** The verdict *)

Lemma SFcompare_swap (x y : spec_float) :
  SFcompare y x = option_map CompOpp (SFcompare x y).
Proof.
  destruct x as [sx|sx| |sx mx ex], y as [sy|sy| |sy my ey];
    try destruct sx; try destruct sy; try reflexivity; simpl.
  - rewrite (Z.compare_antisym ey ex).
    destruct (ey ?= ex); simpl; try reflexivity.
    rewrite CompOpp_involutive.
    exact (f_equal Some (Pos.compare_cont_antisym my mx Eq)).
  - rewrite (Z.compare_antisym ey ex).
    destruct (ey ?= ex); simpl; try reflexivity.
    exact (f_equal Some (eq_sym (Pos.compare_cont_antisym mx my Eq))).
Qed.

Lemma float_ltb_asym (x y : float) :
  (x <? y)%float = true → (y <? x)%float = false.
Proof.
  rewrite !FloatAxioms.ltb_spec. unfold SFltb.
  rewrite (SFcompare_swap (Prim2SF x) (Prim2SF y)).
  by destruct (SFcompare (Prim2SF x) (Prim2SF y)) as [[]|].
Qed.

Lemma float_eqb_not_ltb (x y : float) :
  (x =? y)%float = true → (x <? y)%float = false ∧ (y <? x)%float = false.
Proof.
  rewrite FloatAxioms.eqb_spec, !FloatAxioms.ltb_spec. unfold SFeqb, SFltb.
  rewrite (SFcompare_swap (Prim2SF x) (Prim2SF y)).
  by destruct (SFcompare (Prim2SF x) (Prim2SF y)) as [[]|].
Qed.

(** What holds of the verdict: when both finish times are set and neither
    stamp is zero, the overlay compares [finish_time - start_time] of the two
    sides; the strictly smaller one wins and equal ones tie. *)
Lemma verdict_by_durations (now : float) (g : Game) (fp fa : float) :
  finish_time (player g) = Some fp → finish_time (algo g) = Some fa →
  (fp =? 0)%float = false → (fa =? 0)%float = false →
  ((fp - start_time (player g) <? fa - start_time (algo g))%float = true →
   results_overlay now g = Some YouWin)
  ∧ ((fa - start_time (algo g) <? fp - start_time (player g))%float = true →
     results_overlay now g = Some QuickSortWins)
  ∧ ((fp - start_time (player g) =? fa - start_time (algo g))%float = true →
     results_overlay now g = Some ItsATie).
Proof.
  intros Hp Ha Hpz Haz.
  unfold results_overlay, p_time, a_time, float_or.
  rewrite Hp, Ha, Hpz, Haz. simpl.
  repeat split.
  - by intros ->.
  - intros H. by rewrite (float_ltb_asym _ _ H), H.
  - intros H. by destruct (float_eqb_not_ltb _ _ H) as [-> ->].
Qed.

(** The scenario of the specification: the player took 4.0 s, QuickSort
    3.5 s; the overlay names QuickSort, whenever it is drawn. *)
Lemma verdict_4_vs_3_5 (now : float) :
  (5 - start_time (player race_4_vs_3_5) = 4)%float
  ∧ (5.5 - start_time (algo race_4_vs_3_5) = 3.5)%float
  ∧ results_overlay now race_4_vs_3_5 = Some QuickSortWins.
Proof. by repeat split. Qed.

(** ** Finish stamps are clock reads *)

Lemma float_pos_nonzero (t : float) :
  (0 <? t)%float = true → (t =? 0)%float = false.
Proof.
  intros Hpos. destruct (t =? 0)%float eqn:E; [|done].
  destruct (float_eqb_not_ltb _ _ E) as [_ H]. congruence.
Qed.

Lemma stamps_positive_ext (g g' : Game) :
  perf_counter_at g' = perf_counter_at g →
  finish_time (player g') = finish_time (player g) →
  finish_time (algo g') = finish_time (algo g) →
  stamps_positive g → stamps_positive g'.
Proof.
  unfold stamps_positive, positive_clock. intros -> -> ->. done.
Qed.

Lemma stamp_player_stamps_positive (g : Game) :
  stamps_positive g → stamps_positive (stamp_player g).
Proof.
  intros (Hc & Hp & Ha). split; [exact Hc|]. split; [|exact Ha].
  simpl. intros t Ht. assert (t = perf_counter_at g (clock_reads g)) as ->
    by congruence.
  apply Hc.
Qed.

Lemma stamp_algo_stamps_positive (g : Game) :
  stamps_positive g → stamps_positive (stamp_algo g).
Proof.
  intros (Hc & Hp & Ha). split; [exact Hc|]. split; [exact Hp|].
  simpl. intros t Ht. assert (t = perf_counter_at g (clock_reads g)) as ->
    by congruence.
  apply Hc.
Qed.

Lemma drain_stamps_positive (gen : list Step) :
  ∀ g, stamps_positive g → stamps_positive (drain gen g).
Proof.
  induction gen as [|step gen IH]; intros g Hok; simpl.
  - destruct (step_interval <=? _algo_step_timer g)%float; [|done].
    destruct (is_None _);
      [apply stamp_algo_stamps_positive|]; by apply (stamps_positive_ext g).
  - destruct (step_interval <=? _algo_step_timer g)%float; [|done].
    apply IH.
    destruct (bool_decide (action step = "done") && _);
      [apply stamp_algo_stamps_positive|]; by apply (stamps_positive_ext g).
Qed.

Lemma handle_click_stamps_positive (hit : option Z) (g g' : Game) :
  _handle_click hit g = Ok g' → stamps_positive g → stamps_positive g'.
Proof.
  unfold _handle_click. intros H Hok.
  destruct (_index_at_pos hit (arr (player g))) as [idx|];
    [|by assert (g' = g) as -> by congruence].
  destruct (is_not_None (finish_time (player g)));
    [by assert (g' = g) as -> by congruence|].
  destruct (selected (player g)) as [sel|].
  2: { assert (g' = with_player (with_selected (Some idx) (player g)) g) as ->
         by congruence.
       by apply (stamps_positive_ext g). }
  destruct (negb (idx =? sel)).
  2: { assert (g' = with_player (with_selected None (player g)) g) as ->
         by congruence.
       by apply (stamps_positive_ext g). }
  destruct (swap_items sel idx (arr (player g))) as [[[u a] ss]| |]; [|done|done].
  simpl in H.
  destruct (is_sorted a && is_None (finish_time (player g))).
  - match type of H with Ok (with_player _ ?g1) = _ =>
      assert (Hg1 : stamps_positive g1);
      [|assert (g' = with_player (with_selected None (player g1)) g1) as ->
          by congruence;
        by apply (stamps_positive_ext g1)]
    end.
    apply stamp_player_stamps_positive. by apply (stamps_positive_ext g).
  - match type of H with Ok ?g1 = _ =>
      assert (g' = g1) as -> by congruence
    end.
    by apply (stamps_positive_ext g).
Qed.

Lemma run_op_stamps_positive (op : Op) (g g' : Game) :
  run_op op g = Ok g' → stamps_positive g → stamps_positive g'.
Proof.
  destruct op as [hit| |dt| |]; unfold run_op; intros Hrun Hok.
  - by apply (handle_click_stamps_positive hit g).
  - assert (g' = toggle_pause g) as -> by congruence.
    by apply (stamps_positive_ext g).
  - assert (g' = update_algo dt g) as -> by congruence.
    unfold update_algo.
    destruct (is_not_None (finish_time (algo g)) || paused_algo g); [done|].
    apply drain_stamps_positive. by apply (stamps_positive_ext g).
  - assert (g' = check_player_finished g) as -> by congruence.
    unfold check_player_finished.
    destruct (is_None (finish_time (player g)) && is_sorted (arr (player g)));
      [|done].
    by apply stamp_player_stamps_positive.
  - assert (g' = snd (draw g)) as -> by congruence.
    apply (stamps_positive_ext g);
      [|by rewrite (proj1 (draw_frame g))
       |by rewrite (proj1 (proj2 (draw_frame g)))
       |done].
    unfold draw. by destruct (_current_step g).
Qed.

Lemma run_ops_stamps_positive (ops : list Op) :
  ∀ g g', run_ops ops g = Ok g' → stamps_positive g → stamps_positive g'.
Proof.
  induction ops as [|op ops IH]; intros g g'; simpl.
  - intros H. by assert (g' = g) as -> by congruence.
  - destruct (run_op op g) as [g1| |] eqn:Hop; [|done|done].
    intros Hrun Hok. apply (IH g1 g' Hrun).
    by apply (run_op_stamps_positive op g).
Qed.

Lemma reset_stamps_positive (base : list Z) (g : Game) :
  positive_clock g → stamps_positive (reset base g).
Proof. intros Hc. split; [exact Hc|]. by split; intros t. Qed.

Lemma draw_overlay (g : Game) : ∃ now, fst (draw g) = results_overlay now g.
Proof.
  unfold draw. destruct (_current_step g); eexists; reflexivity.
Qed.

(** C3. On a clock whose reads are positive, as those of
    [time.perf_counter()] are, every session after a reset runs without
    failure, and whenever both finish times are set the overlay that [draw]
    shows is decided by the two durations [finish_time - start_time]: a
    strictly smaller player duration gives the player, a strictly smaller
    algorithm duration gives QuickSort, equal durations give a tie; in
    particular 4.0 s against 3.5 s gives QuickSort. *)
Theorem verdict_by_smaller_duration (base : list Z) (g0 : Game) (ops : list Op) :
  positive_clock g0 →
  ∃ g,
    run_ops ops (reset base g0) = Ok g
    ∧ ∀ fp fa,
        finish_time (player g) = Some fp → finish_time (algo g) = Some fa →
        let p_duration := (fp - start_time (player g))%float in
        let a_duration := (fa - start_time (algo g))%float in
        ((p_duration <? a_duration)%float = true → fst (draw g) = Some YouWin)
        ∧ ((a_duration <? p_duration)%float = true →
           fst (draw g) = Some QuickSortWins)
        ∧ ((p_duration =? a_duration)%float = true →
           fst (draw g) = Some ItsATie)
        ∧ (p_duration = 4%float → a_duration = 3.5%float →
           fst (draw g) = Some QuickSortWins).
Proof.
  intros Hclock.
  destruct (run_ops_player_array base ops (reset base g0) (reset_player_array base g0))
    as (g & Hrun & _).
  exists g. split; [exact Hrun|].
  destruct (run_ops_stamps_positive ops _ g Hrun (reset_stamps_positive base g0 Hclock))
    as (_ & Hp & Ha).
  intros fp fa Hfp Hfa p_duration a_duration.
  destruct (draw_overlay g) as [now ->].
  destruct (verdict_by_durations now g fp fa Hfp Hfa
              (float_pos_nonzero fp (Hp fp Hfp)) (float_pos_nonzero fa (Ha fa Hfa)))
    as (Hyou & Hqs & Htie).
  split; [exact Hyou|]. split; [exact Hqs|]. split; [exact Htie|].
  intros H4 H35. apply Hqs. fold p_duration a_duration. by rewrite H4, H35.
Qed.

Lemma verdict_by_smaller_duration_witness :
  positive_clock before_race ∧
  ∃ g,
    run_ops [Click (Some 0); Click (Some 1); Tick 1; CheckFinished]
      (reset [20; 10; 30] before_race) = Ok g
    ∧ finish_time (player g) = Some 5%float
    ∧ finish_time (algo g) = Some 5.5%float
    ∧ (5 - start_time (player g) = 4)%float
    ∧ (5.5 - start_time (algo g) = 3.5)%float
    ∧ fst (draw g) = Some QuickSortWins.
Proof.
  assert (Hclock : positive_clock before_race).
  { intros [|[|[|n]]]; reflexivity. }
  split; [exact Hclock|].
  destruct (verdict_by_smaller_duration [20; 10; 30] before_race
              [Click (Some 0); Click (Some 1); Tick 1; CheckFinished] Hclock)
    as (g & Hrun & Hverdict).
  exists g. split; [exact Hrun|].
  vm_compute in Hrun. injection Hrun as <-.
  split; [reflexivity|]. split; [reflexivity|].
  split; [reflexivity|]. split; [reflexivity|].
  apply (Hverdict 5%float 5.5%float); reflexivity.
Defined.

(** * Further properties of the program *)

(** ** [is_sorted] and the array factory *)

(** X1. [is_sorted] accepts exactly the lists in which every entry is at
    most every later entry (equal neighbours are accepted). *)
Theorem is_sorted_all_pairs (l : list Z) :
  is_sorted l = true ↔ StronglySorted Z.le l.
Proof.
  rewrite is_sorted_Sorted. split.
  - apply Sorted_StronglySorted. intros x y z. apply Z.le_trans.
  - apply StronglySorted_Sorted.
Qed.

Lemma range_step_five (n : Z) :
  range_step 10 (10 + n * 5) 5 = (λ k, 10 + 5 * Z.of_nat k) <$> seq 0 (Z.to_nat n).
Proof.
  unfold range_step. do 2 f_equal.
  replace (10 + n * 5 - 10 + 5 - 1) with (4 + n * 5) by lia.
  rewrite Z.div_add by lia. by rewrite (Z.div_small 4 5) by lia.
Qed.

Lemma progression_sorted (m : nat) :
  ∀ k0 : nat,
    StronglySorted Z.lt ((λ k, 10 + 5 * Z.of_nat k) <$> seq k0 m)
    ∧ Forall (λ v, 10 + 5 * Z.of_nat k0 <= v) ((λ k, 10 + 5 * Z.of_nat k) <$> seq k0 m).
Proof.
  induction m as [|m IH]; intros k0; csimpl.
  - split; constructor.
  - destruct (IH (S k0)) as [Hs Hf]. split.
    + constructor; [done|]. eapply Forall_impl; [exact Hf|]. simpl. lia.
    + constructor; [lia|]. eapply Forall_impl; [exact Hf|]. simpl. lia.
Qed.

Lemma StronglySorted_lt_le (l : list Z) :
  StronglySorted Z.lt l → StronglySorted Z.le l.
Proof.
  induction 1 as [|x l Hl IH Hx]; constructor; [done|].
  eapply Forall_impl; [exact Hx|]. simpl. lia.
Qed.

Lemma StronglySorted_lt_NoDup (l : list Z) :
  StronglySorted Z.lt l → NoDup l.
Proof.
  induction 1 as [|x l Hl IH Hx]; constructor; [|done].
  rewrite Forall_forall in Hx. intros Hin. specialize (Hx x Hin). lia.
Qed.

Lemma new_array_progression (shuffle : list Z → list Z) (n : Z) :
  (∀ l, shuffle l ≡ₚ l) →
  new_array shuffle n ≡ₚ (λ k, 10 + 5 * Z.of_nat k) <$> seq 0 (Z.to_nat n).
Proof. intros Hperm. unfold new_array. by rewrite range_step_five. Qed.

Lemma new_array_length_NoDup (shuffle : list Z → list Z) (n : Z) :
  (∀ l, shuffle l ≡ₚ l) →
  length (new_array shuffle n) = Z.to_nat n ∧ NoDup (new_array shuffle n).
Proof.
  intros Hperm. pose proof (new_array_progression shuffle n Hperm) as Hp.
  split.
  - rewrite Hp. by rewrite length_fmap, length_seq.
  - rewrite Hp. apply StronglySorted_lt_NoDup, (progression_sorted _ 0%nat).
Qed.

(** X2. Whatever rearrangement the shuffle makes, [new_array(n)] has [n]
    entries (none for [n <= 0]), no value twice, and holds exactly the values
    10, 15, ..., 10 + 5 (n - 1). *)
Theorem new_array_distinct_values (shuffle : list Z → list Z) (n : Z) :
  (∀ l, shuffle l ≡ₚ l) →
  length (new_array shuffle n) = Z.to_nat n
  ∧ NoDup (new_array shuffle n)
  ∧ ∀ v, v ∈ new_array shuffle n ↔ ∃ k, 0 <= k < n ∧ v = 10 + 5 * k.
Proof.
  intros Hperm.
  destruct (new_array_length_NoDup shuffle n Hperm) as [Hlen Hnd].
  split; [done|]. split; [done|].
  intros v. rewrite (new_array_progression shuffle n Hperm).
  rewrite list_elem_of_fmap. split.
  - intros (k & -> & Hk). apply elem_of_seq in Hk. exists (Z.of_nat k). lia.
  - intros (k & Hk & ->). exists (Z.to_nat k). split; [lia|].
    apply elem_of_seq. lia.
Qed.

Lemma new_array_distinct_values_witness :
  (∀ l : list Z, reverse l ≡ₚ l) ∧
  length (new_array reverse 12) = Z.to_nat 12
  ∧ NoDup (new_array reverse 12)
  ∧ ∀ v, v ∈ new_array reverse 12 ↔ ∃ k, 0 <= k < 12 ∧ v = 10 + 5 * k.
Proof.
  split; [apply reverse_Permutation|].
  apply (new_array_distinct_values reverse 12). apply reverse_Permutation.
Defined.

(** X3. On a freshly made array the generator ends with the values in
    their original order 10, 15, 20, ...: the shuffle is undone exactly. *)
Theorem quicksort_steps_undoes_shuffle (shuffle : list Z → list Z) (n : Z) :
  (∀ l, shuffle l ≡ₚ l) →
  ∃ ss last,
    quicksort_steps (new_array shuffle n) = Ok (ss ++ [last])
    ∧ action last = "done"
    ∧ array last = range_step 10 (10 + n * 5) 5.
Proof.
  intros Hperm.
  destruct (quicksort_steps_spec (new_array shuffle n))
    as (ss & sorted & Hrun & Hp & Hsorted & _ & _).
  exists ss, (mkStep sorted None None None "done").
  split; [done|]. split; [done|]. simpl.
  apply (StronglySorted_unique Z.le); [done| |].
  - rewrite range_step_five.
    apply StronglySorted_lt_le, (progression_sorted _ 0%nat).
  - rewrite Hp. unfold new_array. apply Hperm.
Qed.

Lemma quicksort_steps_undoes_shuffle_witness :
  (∀ l : list Z, reverse l ≡ₚ l) ∧
  ∃ ss last,
    quicksort_steps (new_array reverse 12) = Ok (ss ++ [last])
    ∧ action last = "done"
    ∧ array last = range_step 10 (10 + 12 * 5) 5.
Proof.
  split; [apply reverse_Permutation|].
  apply (quicksort_steps_undoes_shuffle reverse 12). apply reverse_Permutation.
Defined.

(** ** How many Steps a run yields *)

Lemma getitem_Ok_inv (k : Z) (l l' : list Z) (x : Z) (ss : list Step) :
  getitem k l = Ok (x, l', ss) → l' = l ∧ ss = [].
Proof.
  unfold getitem. destruct (list_getitem l k); [|done]. by inversion 1.
Qed.

Lemma partition_body_bounds (pivot hi jj ii : Z) (l l' : list Z) (r : Z)
    (ss : list Step) :
  partition_body pivot hi jj ii l = Ok (r, l', ss) →
  ii <= r <= ii + 1 ∧ (length ss <= 2)%nat.
Proof.
  unfold partition_body, gbind at 1 2 3, copy, yield.
  destruct (getitem jj l) as [[[x l1] ss1]| |] eqn:Hget; [|done|done].
  apply getitem_Ok_inv in Hget as [-> ->].
  destruct (x <=? pivot).
  - destruct (ii + 1 =? jj); simpl.
    + unfold gret. intros H. inversion H; subst. simpl. lia.
    + unfold gbind, copy, yield, gret.
      destruct (swap_items (ii + 1) jj l) as [[[u l2] ss2]| |] eqn:Hswap; [|done|done].
      apply swap_items_exchanges in Hswap as (-> & _).
      simpl. intros H. inversion H; subst. simpl. lia.
  - unfold gret. simpl. intros H. inversion H; subst. simpl. lia.
Qed.

Lemma for_each_bounds (pivot hi : Z) (js : list Z) :
  ∀ (ii : Z) (l l' : list Z) (r : Z) (ss : list Step),
    for_each js (partition_body pivot hi) ii l = Ok (r, l', ss) →
    ii <= r <= ii + Z.of_nat (length js) ∧ (length ss <= 2 * length js)%nat.
Proof.
  induction js as [|k js IH]; intros ii l l' r ss; simpl.
  - unfold gret. intros H. inversion H; subst. simpl. lia.
  - unfold gbind.
    destruct (partition_body pivot hi k ii l) as [[[r1 l1] ss1]| |] eqn:Hbody;
      [|done|done].
    destruct (for_each js (partition_body pivot hi) r1 l1) as [[[r2 l2] ss2]| |]
      eqn:Hrest; [|done|done].
    intros H. inversion H; subst.
    apply partition_body_bounds in Hbody as [Hr1 Hs1].
    apply IH in Hrest as [Hr2 Hs2].
    rewrite length_app. lia.
Qed.

Lemma length_range (lo hi : Z) : length (range lo hi) = Z.to_nat (hi - lo).
Proof. unfold range. by rewrite length_fmap, length_seq. Qed.

(** A partition pass over [lo..hi] returns a position of the range, after
    at most two Steps per scanned entry and two more, the first of them the
    "pivot" Step showing the array as it was. *)
Lemma partition_bounds (lo hi : Z) (l l' : list Z) (p : Z) (ss : list Step) :
  lo <= hi →
  _partition lo hi l = Ok (p, l', ss) →
  lo <= p <= hi
  ∧ Z.of_nat (length ss) <= 2 * (hi - lo) + 2
  ∧ ∃ ss', ss = mkStep l None None (Some hi) "pivot" :: ss'.
Proof.
  intros Hlohi. unfold _partition, gbind at 1 2 3 4, copy, yield.
  destruct (getitem hi l) as [[[x l1] ss1]| |] eqn:Hget; [|done|done].
  apply getitem_Ok_inv in Hget as [-> ->].
  destruct (for_each (range lo hi) (partition_body x hi) (lo - 1) l)
    as [[[r l1] ss1]| |] eqn:Hloop; [|done|done].
  apply for_each_bounds in Hloop as [Hr Hs]. rewrite length_range in Hr, Hs.
  destruct (negb (r + 1 =? hi)).
  - unfold gbind, copy, yield, gret.
    destruct (swap_items (r + 1) hi l1) as [[[u l2] ss2]| |] eqn:Hswap; [|done|done].
    apply swap_items_exchanges in Hswap as (-> & _).
    simpl. intros H. inversion H; subst.
    split; [lia|]. split; [|by eexists].
    simpl. rewrite length_app. simpl. lia.
  - unfold gret. simpl. intros H. inversion H; subst.
    split; [lia|]. split; [|by eexists].
    simpl. rewrite length_app. simpl. lia.
Qed.

Lemma quicksort_length (fuel : nat) :
  ∀ (lo hi : Z) (l l' : list Z) (u : unit) (ss : list Step),
    _quicksort fuel lo hi l = Ok (u, l', ss) →
    Z.of_nat (length ss) <= Z.max 0 (hi - lo + 1) * (Z.max 0 (hi - lo + 1) + 1)
    ∧ (lo < hi → ∃ ss', ss = mkStep l None None (Some hi) "pivot" :: ss').
Proof.
  induction fuel as [|fuel IH]; intros lo hi l l' u ss; simpl.
  - destruct (lo <? hi) eqn:E; [done|].
    apply Z.ltb_ge in E. unfold gret. intros H. inversion H; subst.
    split; [simpl; nia|lia].
  - destruct (lo <? hi) eqn:E.
    + apply Z.ltb_lt in E. unfold gbind.
      destruct (_partition lo hi l) as [[[p l1] ss1]| |] eqn:Hpart; [|done|done].
      destruct (_quicksort fuel lo (p - 1) l1) as [[[u1 l2] ss2]| |] eqn:Hleft;
        [|done|done].
      destruct (_quicksort fuel (p + 1) hi l2) as [[[u2 l3] ss3]| |] eqn:Hright;
        [|done|done].
      intros H. inversion H; subst.
      apply partition_bounds in Hpart as (Hp & Hs1 & ss' & ->); [|lia].
      apply IH in Hleft as [Hs2 _]. apply IH in Hright as [Hs3 _].
      split; [|intros _; by eexists].
      rewrite !length_app. simpl length in *. nia.
    + apply Z.ltb_ge in E. unfold gret. intros H. inversion H; subst.
      split; [simpl; nia|lia].
Qed.

(** X4. A run on [n] entries yields at most [n (n + 1) + 1] Steps. *)
Theorem quicksort_steps_count (data : list Z) :
  ∃ steps,
    quicksort_steps data = Ok steps
    ∧ (1 <= length steps <= length data * (length data + 1) + 1)%nat.
Proof.
  destruct (quicksort_steps_spec data) as (ss & sorted & Hrun & _).
  eexists. split; [exact Hrun|].
  rewrite length_app. simpl. split; [lia|].
  unfold quicksort_steps, quicksort_body, gbind in Hrun.
  destruct (decide (length data = 0%nat)) as [Hnil|Hcons].
  - unfold gret, copy, yield in Hrun. simpl in Hrun. inversion Hrun as [Heq].
    destruct ss; [simpl; lia|]. by destruct ss.
  - destruct (_quicksort (length data) 0 (Z.of_nat (length data) - 1) data)
      as [[[u l'] ss0]| |] eqn:Hq; [|done|done].
    unfold copy, yield in Hrun. simpl in Hrun. inversion Hrun as [Heq].
    apply app_inj_tail in Heq as [-> _].
    apply quicksort_length in Hq as [Hlen _]. nia.
Qed.

(** X5. On two entries or more the first Step announces the pivot: it
    shows the input untouched and points at its last position. *)
Theorem quicksort_steps_first_pivot (data : list Z) :
  (2 <= length data)%nat →
  ∃ rest,
    quicksort_steps data
    = Ok (mkStep data None None (Some (Z.of_nat (length data) - 1)) "pivot" :: rest).
Proof.
  intros Hlen.
  destruct (quicksort_steps_spec data) as (ss & sorted & Hrun & _).
  rewrite Hrun.
  unfold quicksort_steps, quicksort_body, gbind in Hrun.
  destruct (decide (length data = 0%nat)) as [Hnil|Hcons]; [lia|].
  destruct (_quicksort (length data) 0 (Z.of_nat (length data) - 1) data)
    as [[[u l'] ss0]| |] eqn:Hq; [|done|done].
  unfold copy, yield in Hrun. simpl in Hrun. inversion Hrun as [Heq].
  apply app_inj_tail in Heq as [-> _].
  apply quicksort_length in Hq as [_ Hfirst].
  destruct Hfirst as (ss' & ->); [lia|].
  by eexists.
Qed.

Lemma quicksort_steps_first_pivot_witness :
  (2 <= length [30; 10; 20])%nat ∧
  ∃ rest,
    quicksort_steps [30; 10; 20]
    = Ok (mkStep [30; 10; 20] None None (Some (Z.of_nat (length [30; 10; 20]) - 1))
            "pivot" :: rest).
Proof.
  split; [simpl; lia|].
  apply (quicksort_steps_first_pivot [30; 10; 20]). simpl. lia.
Defined.

(** ** The algorithm side over a session *)

Lemma generator_shape (base : list Z) :
  ∃ ss sorted,
    generator base = ss ++ [mkStep sorted None None None "done"]
    ∧ sorted ≡ₚ base
    ∧ StronglySorted Z.le sorted
    ∧ Forall (λ s, action s ≠ "done") ss
    ∧ Forall (λ s, array s ≡ₚ base) ss.
Proof.
  destruct (quicksort_steps_spec base) as (ss & sorted & Hrun & Hp & Hs & Hin & Hsnap).
  exists ss, sorted. unfold generator. rewrite Hrun.
  repeat split; try done.
  eapply Forall_impl; [exact Hin|]. intros s. apply inner_step_not_done.
Qed.

(** In a list that ends with its only "done" Step, the Step taken next is
    the "done" one exactly when nothing follows it. *)
Lemma next_is_done_iff_last (ss : list Step) (d step : Step) (gen' : list Step)
    (k : nat) :
  Forall (λ s, action s ≠ "done") ss → action d = "done" →
  drop k (ss ++ [d]) = step :: gen' →
  (action step = "done" ↔ gen' = []).
Proof.
  intros Hss Hd Hdrop.
  destruct (decide (k < length ss)%nat) as [Hlt|Hge].
  - rewrite drop_app_le in Hdrop by lia.
    destruct (drop k ss) as [|s0 r] eqn:Hr.
    { apply (f_equal length) in Hr. rewrite length_drop in Hr. simpl in Hr. lia. }
    simpl in Hdrop. inversion Hdrop; subst.
    assert (Hin : step ∈ ss).
    { apply (subseteq_drop k ss). rewrite Hr. by left. }
    rewrite Forall_forall in Hss. specialize (Hss step Hin).
    split; [done|]. by destruct r.
  - rewrite drop_app_ge in Hdrop by lia.
    destruct (k - length ss)%nat; simpl in Hdrop.
    + by inversion Hdrop; subst.
    + by rewrite drop_nil in Hdrop.
Qed.

Lemma drain_algo_side (base : list Z) (gen : list Step) :
  ∀ g k,
    _gen g = gen → applied_prefix base k g →
    (is_Some (finish_time (algo g)) ↔ gen = []) →
    algo_side_ok base (drain gen g).
Proof.
  destruct (generator_shape base) as (ss & sorted & Hshape & _ & _ & Hnd & _).
  induction gen as [|step gen IH]; intros g k Hgen Hpre Hfin; simpl.
  - assert (Hsome : is_Some (finish_time (algo g))) by (by apply Hfin).
    destruct Hsome as [t Ht].
    destruct (step_interval <=? _algo_step_timer g)%float.
    + simpl. rewrite Ht. simpl. split; [by exists k|]. simpl. by rewrite Ht, Hgen.
    + split; [by exists k|]. by rewrite Hgen.
  - assert (Hnone : finish_time (algo g) = None).
    { destruct (finish_time (algo g)) eqn:E; [|done].
      assert (Hs : is_Some (Some f)) by done. by apply Hfin in Hs. }
    destruct (step_interval <=? _algo_step_timer g)%float.
    2: { split; [by exists k|]. rewrite Hgen, Hnone. split; [by inversion 1|done]. }
    destruct Hpre as (Hg & Hc & Ha). rewrite Hgen in Hg. symmetry in Hg.
    pose proof Hg as Hg0. rewrite Hshape in Hg0.
    apply (next_is_done_iff_last ss (mkStep sorted None None None "done") step gen k
             Hnd eq_refl) in Hg0.
    apply drop_cons_inv in Hg as [Hdrop Hlast].
    simpl. rewrite Hnone. simpl.
    destruct (bool_decide (action step = "done")) eqn:Hdone.
    + apply bool_decide_eq_true in Hdone. simpl.
      eapply (IH _ (S k)); simpl.
      * done.
      * unfold applied_prefix. simpl. by rewrite Hlast, Hdrop.
      * split; [intros _; by apply Hg0|done].
    + apply bool_decide_eq_false in Hdone. simpl.
      eapply (IH _ (S k)); simpl.
      * done.
      * unfold applied_prefix. simpl. by rewrite Hlast, Hdrop.
      * rewrite Hnone. split; [by inversion 1|].
        intros Hnil. by apply Hg0 in Hnil.
Qed.

Lemma run_op_algo_side (base : list Z) (op : Op) (g g' : Game) :
  run_op op g = Ok g' → algo_side_ok base g → algo_side_ok base g'.
Proof.
  destruct op as [hit| |dt| |]; unfold run_op; intros Hrun [[k Hpre] Hfin].
  - destruct (run_op_applied_prefix base (Click hit) g g' k Hrun Hpre) as (k' & _ & Hk').
    split; [by exists k'|].
    destruct (handle_click_pacing_frame hit g g' Hrun) as (-> & _ & _).
    by rewrite (handle_click_algo hit g g' Hrun).
  - assert (g' = toggle_pause g) as -> by congruence. by split; [exists k|].
  - assert (g' = update_algo dt g) as -> by congruence. unfold update_algo.
    destruct (is_not_None (finish_time (algo g)) || paused_algo g) eqn:E.
    + by split; [exists k|].
    + apply (drain_algo_side base _ _ k); [done|done|].
      simpl. by rewrite Hfin.
  - assert (g' = check_player_finished g) as -> by congruence.
    unfold check_player_finished.
    destruct (is_None (finish_time (player g)) && _); by split; [exists k|].
  - assert (g' = snd (draw g)) as -> by congruence.
    destruct (draw_frame g) as (_ & Ha' & Hg' & Hc' & _).
    split.
    + exists k. destruct Hpre as (H1 & H2 & H3). unfold applied_prefix.
      by rewrite Ha', Hg', Hc'.
    + by rewrite Ha', Hg'.
Qed.

Lemma run_ops_algo_side (base : list Z) (ops : list Op) :
  ∀ g g', run_ops ops g = Ok g' → algo_side_ok base g → algo_side_ok base g'.
Proof.
  induction ops as [|op ops IH]; intros g g' Hrun Hok; simpl in Hrun.
  - by inversion Hrun; subst.
  - destruct (run_op op g) as [g1| |] eqn:Hop; [|done|done].
    apply (IH g1 g' Hrun). by apply (run_op_algo_side base op g).
Qed.

Lemma reset_algo_side (base : list Z) (g : Game) : algo_side_ok base (reset base g).
Proof.
  split; [exists 0%nat; apply reset_applied_prefix|].
  simpl. destruct (generator_shape base) as (ss & sorted & -> & _).
  split; [by intros [? ?]|]. intros H. by destruct ss.
Qed.

Lemma session_algo_side (base : list Z) (g0 : Game) (ops : list Op) :
  ∃ g, run_ops ops (reset base g0) = Ok g ∧ algo_side_ok base g.
Proof.
  destruct (run_ops_player_array base ops (reset base g0) (reset_player_array base g0))
    as (g & Hrun & _).
  exists g. split; [done|].
  apply (run_ops_algo_side base ops (reset base g0) g Hrun), reset_algo_side.
Qed.

(** X6. All through a session the algorithm side shows a permutation of
    the array of the reset: no tick ever displays anything else. *)
Theorem algo_array_permutation (base : list Z) (g0 : Game) (ops : list Op) :
  ∃ g, run_ops ops (reset base g0) = Ok g ∧ arr (algo g) ≡ₚ base.
Proof.
  destruct (session_algo_side base g0 ops) as (g & Hrun & [[k (_ & _ & Ha)] _]).
  exists g. split; [done|]. rewrite Ha.
  destruct (last (take k (generator base))) as [s|] eqn:Hlast; [|done].
  assert (Hin : s ∈ generator base).
  { apply (subseteq_take k), last_Some_elem_of. exact Hlast. }
  destruct (generator_shape base) as (ss & sorted & Hshape & Hp & _ & _ & Hsnap).
  rewrite Hshape in Hin. apply elem_of_app in Hin as [Hin|Hin].
  - rewrite Forall_forall in Hsnap. by apply Hsnap.
  - apply list_elem_of_singleton in Hin. by subst.
Qed.

(** X7. The algorithm side's finish time is set exactly when the generator
    has nothing left; from then on the current Step is the "done" Step and
    the displayed array is sorted.  (So the stamp is always taken at the
    "done" Step, never on finding the generator exhausted.) *)
Theorem algo_finished_iff_exhausted (base : list Z) (g0 : Game) (ops : list Op) :
  ∃ g,
    run_ops ops (reset base g0) = Ok g
    ∧ (is_Some (finish_time (algo g)) ↔ _gen g = [])
    ∧ (is_Some (finish_time (algo g)) →
       is_sorted (arr (algo g)) = true
       ∧ ∃ s, _current_step g = Some s ∧ action s = "done"
              ∧ array s = arr (algo g)).
Proof.
  destruct (session_algo_side base g0 ops) as (g & Hrun & [[k (Hg & Hc & Ha)] Hfin]).
  exists g. split; [done|]. split; [done|].
  intros Hsome. apply Hfin in Hsome. rewrite Hsome in Hg.
  destruct (generator_shape base) as (ss & sorted & Hshape & _ & Hsorted & _).
  assert (Hk : (length (generator base) <= k)%nat).
  { symmetry in Hg. apply (f_equal length) in Hg. rewrite length_drop in Hg.
    simpl in Hg. lia. }
  rewrite take_ge in Hc, Ha by done.
  rewrite Hshape, last_snoc in Hc, Ha.
  rewrite Ha. split.
  - by apply is_sorted_Sorted, StronglySorted_Sorted.
  - by eexists.
Qed.

(** ** The player side over a session *)

Lemma handle_click_player_done (hit : option Z) (g g' : Game) :
  _handle_click hit g = Ok g' → player_done_sorted g → player_done_sorted g'.
Proof.
  unfold _handle_click, player_done_sorted.
  destruct (_index_at_pos hit (arr (player g))) as [idx|]; [|by inversion 1].
  destruct (is_not_None (finish_time (player g))) eqn:Hnn; [by inversion 1|].
  assert (Hfin : finish_time (player g) = None).
  { by destruct (finish_time (player g)). }
  destruct (selected (player g)) as [sel|].
  2: { inversion 1; subst. simpl. rewrite Hfin. by intros _ [? ?]. }
  destruct (negb (idx =? sel)).
  2: { inversion 1; subst. simpl. rewrite Hfin. by intros _ [? ?]. }
  destruct (swap_items sel idx (arr (player g))) as [[[u a] ss]| |]; [|done|done].
  simpl. rewrite Hfin. simpl. rewrite andb_true_r.
  destruct (is_sorted a) eqn:Hs; inversion 1; subst; simpl.
  - done.
  - rewrite Hfin. by intros _ [? ?].
Qed.

Lemma run_op_player_done (op : Op) (g g' : Game) :
  run_op op g = Ok g' → player_done_sorted g → player_done_sorted g'.
Proof.
  destruct op as [hit| |dt| |]; unfold run_op; intros Hrun Hok.
  - by apply (handle_click_player_done hit g).
  - by assert (g' = toggle_pause g) as -> by congruence.
  - assert (g' = update_algo dt g) as -> by congruence.
    unfold player_done_sorted, update_algo.
    destruct (is_not_None (finish_time (algo g)) || paused_algo g); [done|].
    by rewrite drain_player.
  - assert (g' = check_player_finished g) as -> by congruence.
    unfold player_done_sorted, check_player_finished.
    destruct (is_None (finish_time (player g)) && is_sorted (arr (player g))) eqn:E;
      [|done].
    apply andb_prop in E as [_ E]. by intros _.
  - assert (g' = snd (draw g)) as -> by congruence.
    unfold player_done_sorted. by destruct (draw_frame g) as (-> & _).
Qed.

Lemma run_ops_player_done (ops : list Op) :
  ∀ g g', run_ops ops g = Ok g' → player_done_sorted g → player_done_sorted g'.
Proof.
  induction ops as [|op ops IH]; intros g g' Hrun Hok; simpl in Hrun.
  - by inversion Hrun; subst.
  - destruct (run_op op g) as [g1| |] eqn:Hop; [|done|done].
    apply (IH g1 g' Hrun). by apply (run_op_player_done op g).
Qed.

(** X8. Whenever the player's finish time is set, the player's array is
    the ascending sort of the array of the reset: no sequence of clicks gets
    a finish stamp onto an unsorted array. *)
Theorem player_finished_means_sorted (base : list Z) (g0 : Game) (ops : list Op) :
  ∃ g,
    run_ops ops (reset base g0) = Ok g
    ∧ (is_Some (finish_time (player g)) →
       Sorted Z.le (arr (player g)) ∧ arr (player g) ≡ₚ base).
Proof.
  destruct (run_ops_player_array base ops (reset base g0) (reset_player_array base g0))
    as (g & Hrun & Hperm & _).
  exists g. split; [done|]. intros Hsome. split; [|done].
  apply is_sorted_Sorted.
  apply (run_ops_player_done ops (reset base g0) g Hrun); [|done].
  by intros [? ?].
Qed.

Lemma drain_algo_frame (gen : list Step) :
  ∀ g, moves (algo (drain gen g)) = moves (algo g)
       ∧ selected (algo (drain gen g)) = selected (algo g)
       ∧ start_time (algo (drain gen g)) = start_time (algo g).
Proof.
  induction gen as [|step gen IH]; intros g; simpl.
  - destruct (step_interval <=? _algo_step_timer g)%float; [|done].
    by destruct (is_None (finish_time (algo g))).
  - destruct (step_interval <=? _algo_step_timer g)%float; [|done].
    match goal with |- context [drain gen ?g1] => destruct (IH g1) as (-> & -> & ->) end.
    by destruct (bool_decide (action step = "done") && _).
Qed.

Ltac solve_bookkeeping :=
  simpl; repeat split; try done;
  repeat match goal with
         | |- context [is_not_None ?o] => destruct (is_not_None o)
         end;
  lia.

Lemma handle_click_moves (hit : option Z) (g g' : Game) :
  _handle_click hit g = Ok g' →
  moves (player g) <= moves (player g')
  ∧ 2 * moves (player g') + pending g' <= 2 * moves (player g) + pending g + 1
  ∧ start_time (player g') = start_time (player g).
Proof.
  unfold _handle_click, pending.
  destruct (_index_at_pos hit (arr (player g))) as [idx|].
  2: { inversion 1; subst. solve_bookkeeping. }
  destruct (is_not_None (finish_time (player g))).
  { inversion 1; subst. solve_bookkeeping. }
  destruct (selected (player g)) as [sel|]; simpl.
  2: { inversion 1; subst. solve_bookkeeping. }
  destruct (negb (idx =? sel)).
  2: { inversion 1; subst. solve_bookkeeping. }
  destruct (swap_items sel idx (arr (player g))) as [[[u a] ss]| |]; [|done|done].
  simpl. destruct (is_sorted a && is_None (finish_time (player g)));
    inversion 1; subst; solve_bookkeeping.
Qed.

Lemma run_op_bookkeeping (op : Op) (g g' : Game) :
  run_op op g = Ok g' →
  moves (player g) <= moves (player g')
  ∧ 2 * moves (player g') + pending g'
    <= 2 * moves (player g) + pending g + (if is_click op then 1 else 0)
  ∧ start_time (player g') = start_time (player g)
  ∧ moves (algo g') = moves (algo g)
  ∧ selected (algo g') = selected (algo g)
  ∧ start_time (algo g') = start_time (algo g).
Proof.
  destruct op as [hit| |dt| |]; unfold run_op; intros Hrun.
  - destruct (handle_click_moves hit g g' Hrun) as (H1 & H2 & H3).
    rewrite (handle_click_algo hit g g' Hrun). simpl. by repeat split.
  - assert (g' = toggle_pause g) as -> by congruence.
    unfold pending. solve_bookkeeping.
  - assert (g' = update_algo dt g) as -> by congruence.
    unfold update_algo, pending.
    destruct (is_not_None (finish_time (algo g)) || paused_algo g).
    { solve_bookkeeping. }
    rewrite drain_player.
    match goal with |- context [drain ?gen ?g1] =>
      destruct (drain_algo_frame gen g1) as (-> & -> & ->) end.
    solve_bookkeeping.
  - assert (g' = check_player_finished g) as -> by congruence.
    unfold check_player_finished, pending.
    destruct (is_None (finish_time (player g)) && _); solve_bookkeeping.
  - assert (g' = snd (draw g)) as -> by congruence.
    unfold pending. destruct (draw_frame g) as (-> & -> & _).
    solve_bookkeeping.
Qed.

Lemma run_ops_bookkeeping (ops : list Op) :
  ∀ g g',
    run_ops ops g = Ok g' →
    moves (player g) <= moves (player g')
    ∧ 2 * moves (player g') + pending g'
      <= 2 * moves (player g) + pending g + Z.of_nat (count_clicks ops)
    ∧ start_time (player g') = start_time (player g)
    ∧ moves (algo g') = moves (algo g)
    ∧ selected (algo g') = selected (algo g)
    ∧ start_time (algo g') = start_time (algo g).
Proof.
  induction ops as [|op ops IH]; intros g g' Hrun; simpl in Hrun.
  - inversion Hrun; subst. change (count_clicks []) with 0%nat. repeat split; lia.
  - destruct (run_op op g) as [g1| |] eqn:Hop; [|done|done].
    destruct (run_op_bookkeeping op g g1 Hop) as (A1 & A2 & A3 & A4 & A5 & A6).
    destruct (IH g1 g' Hrun) as (B1 & B2 & B3 & B4 & B5 & B6).
    assert (Hc : Z.of_nat (count_clicks (op :: ops))
                 = (if is_click op then 1 else 0) + Z.of_nat (count_clicks ops)).
    { unfold count_clicks. rewrite filter_cons. destruct (is_click op); simpl; lia. }
    rewrite Hc, B3, B4, B5, B6. repeat split; try done; lia.
Qed.

(** X9. Over a session the move counter never falls and every counted move
    took two clicks; the algorithm side's counter stays 0 and it never has a
    selection; neither side's start time changes. *)
Theorem moves_need_two_clicks (base : list Z) (g0 : Game) (ops : list Op) :
  ∃ g,
    run_ops ops (reset base g0) = Ok g
    ∧ 0 <= moves (player g)
    ∧ 2 * moves (player g) <= Z.of_nat (count_clicks ops)
    ∧ moves (algo g) = 0 ∧ selected (algo g) = None
    ∧ start_time (player g) = start_time (player (reset base g0))
    ∧ start_time (algo g) = start_time (algo (reset base g0)).
Proof.
  destruct (run_ops_player_array base ops (reset base g0) (reset_player_array base g0))
    as (g & Hrun & _).
  exists g. split; [done|].
  destruct (run_ops_bookkeeping ops (reset base g0) g Hrun)
    as (H1 & H2 & H3 & H4 & H5 & H6).
  assert (Hp : 0 <= pending g) by (unfold pending; by destruct (is_not_None _)).
  change (moves (player (reset base g0))) with 0 in *.
  change (pending (reset base g0)) with 0 in *.
  change (moves (algo (reset base g0))) with 0 in *.
  change (selected (algo (reset base g0))) with (@None Z) in *.
  repeat split; try done; lia.
Qed.

(** ** The two-click protocol *)

Lemma py_index_nonneg (n : nat) (k : Z) :
  0 <= k < Z.of_nat n → py_index n k = Some (Z.to_nat k).
Proof.
  intros Hk. rewrite <- (Z2Nat.id k) at 1 by lia. apply py_index_nat. lia.
Qed.

Lemma swap_items_other (a b : Z) (l l' : list Z) (u : unit) (ss : list Step) (k : Z) :
  swap_items a b l = Ok (u, l', ss) →
  0 <= a < Z.of_nat (length l) → 0 <= b < Z.of_nat (length l) →
  0 <= k < Z.of_nat (length l) → k ≠ a → k ≠ b →
  list_getitem l' k = list_getitem l k.
Proof.
  intros Hswap Ha Hb Hk Hka Hkb. revert Hswap.
  unfold swap_items, gbind, getitem, setitem, list_getitem, list_setitem.
  destruct (py_index (length l) b) as [pb|] eqn:Epb; simpl; [|done].
  destruct (l !! pb) as [x|] eqn:Hx; simpl; [|done].
  destruct (py_index (length l) a) as [pa|] eqn:Epa; simpl; [|done].
  destruct (l !! pa) as [y|] eqn:Hy; simpl; [|done].
  rewrite Epa. simpl. rewrite length_insert, Epb. simpl.
  intros H. inversion H; subst. clear H.
  rewrite !length_insert.
  rewrite py_index_nonneg in Epa, Epb |- * by done.
  inversion Epa; subst. inversion Epb; subst. simpl.
  rewrite !list_lookup_insert_ne by lia. done.
Qed.

(** X10. Two clicks on different bars, with nothing selected and the player
    not finished, exchange the two entries and nothing else: the other
    entries stay, the move counter goes up by one, the selection is gone,
    the finish time gets set exactly if the array is now sorted, and the
    algorithm side is not touched. *)
Theorem two_clicks_swap (g : Game) (hit_a hit_b : option Z) (a b : Z) :
  selected (player g) = None →
  finish_time (player g) = None →
  _index_at_pos hit_a (arr (player g)) = Some a →
  _index_at_pos hit_b (arr (player g)) = Some b →
  a ≠ b →
  ∃ g2,
    run_ops [Click hit_a; Click hit_b] g = Ok g2
    ∧ list_getitem (arr (player g2)) a = list_getitem (arr (player g)) b
    ∧ list_getitem (arr (player g2)) b = list_getitem (arr (player g)) a
    ∧ (∀ k, 0 <= k < Z.of_nat (length (arr (player g))) → k ≠ a → k ≠ b →
            list_getitem (arr (player g2)) k = list_getitem (arr (player g)) k)
    ∧ moves (player g2) = moves (player g) + 1
    ∧ selected (player g2) = None
    ∧ (is_Some (finish_time (player g2)) ↔ is_sorted (arr (player g2)) = true)
    ∧ algo g2 = algo g.
Proof.
  intros Hsel Hfin Ha Hb Hne.
  pose proof (index_at_pos_in_range _ _ _ Ha) as Ha'.
  pose proof (index_at_pos_in_range _ _ _ Hb) as Hb'.
  destruct (swap_items_positions (arr (player g)) a b Ha' Hb' Hne) as (l' & Hswap & _).
  cbn [run_ops run_op].
  unfold _handle_click at 1. rewrite Ha, Hfin, Hsel. simpl.
  unfold _handle_click. simpl. rewrite Hb, Hfin. simpl.
  replace (b =? a) with false by (symmetry; apply Z.eqb_neq; lia). simpl.
  rewrite Hswap. simpl. rewrite andb_true_r.
  pose proof (swap_items_exchanges a b _ _ _ _ Hswap) as (_ & _ & E1 & E2).
  destruct (is_sorted l') eqn:Hs; eexists; (split; [reflexivity|]); simpl.
  - repeat split; try done.
    intros k Hk Hka Hkb. by apply (swap_items_other a b _ _ _ _ k Hswap).
  - rewrite Hfin. repeat split; try done.
    + intros k Hk Hka Hkb. by apply (swap_items_other a b _ _ _ _ k Hswap).
    + intros H. congruence.
Qed.

Lemma two_clicks_swap_witness :
  selected (player (init second_clock [30; 20; 10])) = None ∧
  finish_time (player (init second_clock [30; 20; 10])) = None ∧
  _index_at_pos (Some 2) (arr (player (init second_clock [30; 20; 10]))) = Some 2 ∧
  _index_at_pos (Some 0) (arr (player (init second_clock [30; 20; 10]))) = Some 0 ∧
  2 ≠ 0 ∧
  ∃ g2,
    run_ops [Click (Some 2); Click (Some 0)] (init second_clock [30; 20; 10]) = Ok g2
    ∧ list_getitem (arr (player g2)) 2
      = list_getitem (arr (player (init second_clock [30; 20; 10]))) 0
    ∧ list_getitem (arr (player g2)) 0
      = list_getitem (arr (player (init second_clock [30; 20; 10]))) 2
    ∧ (∀ k, 0 <= k < Z.of_nat (length (arr (player (init second_clock [30; 20; 10]))))
            → k ≠ 2 → k ≠ 0 →
            list_getitem (arr (player g2)) k
            = list_getitem (arr (player (init second_clock [30; 20; 10]))) k)
    ∧ moves (player g2) = moves (player (init second_clock [30; 20; 10])) + 1
    ∧ selected (player g2) = None
    ∧ (is_Some (finish_time (player g2)) ↔ is_sorted (arr (player g2)) = true)
    ∧ algo g2 = algo (init second_clock [30; 20; 10]).
Proof.
  split; [reflexivity|]. split; [reflexivity|]. split; [reflexivity|].
  split; [reflexivity|]. split; [lia|].
  apply (two_clicks_swap (init second_clock [30; 20; 10]) (Some 2) (Some 0) 2 0);
    [reflexivity|reflexivity|reflexivity|reflexivity|lia].
Defined.

(** X11. Once the player has finished, clicks do nothing at all, however
    many: the whole state stays as it is. *)
Theorem clicks_ignored_after_finish (hits : list (option Z)) (g : Game) (t : float) :
  finish_time (player g) = Some t →
  run_ops (Click <$> hits) g = Ok g.
Proof.
  intros Hfin. induction hits as [|hit hits IH]; [done|].
  csimpl. unfold _handle_click. rewrite Hfin. simpl.
  by destruct (_index_at_pos hit (arr (player g))).
Qed.

Lemma clicks_ignored_after_finish_witness :
  finish_time (player game_player_finished) = Some 3%float ∧
  run_ops (Click <$> [Some 0; Some 2; None; Some 1]) game_player_finished
  = Ok game_player_finished.
Proof.
  split; [reflexivity|].
  apply (clicks_ignored_after_finish [Some 0; Some 2; None; Some 1]
           game_player_finished 3%float).
  reflexivity.
Defined.

(** X12. With nothing selected, clicking the same spot twice leaves the
    state exactly as it was: the second click takes the selection back. *)
Theorem click_twice_same_spot (hit : option Z) (g : Game) :
  selected (player g) = None →
  run_ops [Click hit; Click hit] g = Ok g.
Proof.
  intros Hsel. cbn [run_ops run_op]. unfold _handle_click at 1.
  destruct (_index_at_pos hit (arr (player g))) as [idx|] eqn:Hidx.
  2: { unfold _handle_click. by rewrite Hidx. }
  destruct (is_not_None (finish_time (player g))) eqn:Hfin.
  { unfold _handle_click. by rewrite Hidx, Hfin. }
  rewrite Hsel. unfold _handle_click. simpl. rewrite Hidx, Hfin. simpl.
  rewrite Z.eqb_refl. simpl. f_equal.
  destruct g as [p ? ? ? ? ? ? ? ?]. destruct p. simpl in *. by subst.
Qed.

Lemma click_twice_same_spot_witness :
  selected (player (init second_clock [30; 10; 20])) = None ∧
  run_ops [Click (Some 1); Click (Some 1)] (init second_clock [30; 10; 20])
  = Ok (init second_clock [30; 10; 20]).
Proof.
  split; [reflexivity|].
  apply (click_twice_same_spot (Some 1) (init second_clock [30; 10; 20])).
  reflexivity.
Defined.

(** X13. The hit test never hands out a subscript outside the array: a raw
    column inside [0, len) is kept, one left of it becomes 0, one right of it
    becomes [len - 1], and there is no bar to hit on an empty array or
    outside the panel. *)
Theorem index_at_pos_clamps :
  (∀ hit l idx, _index_at_pos hit l = Some idx → 0 <= idx < Z.of_nat (length l))
  ∧ (∀ k l, 0 <= k < Z.of_nat (length l) → _index_at_pos (Some k) l = Some k)
  ∧ (∀ k l, l ≠ [] → k < 0 → _index_at_pos (Some k) l = Some 0)
  ∧ (∀ k l, l ≠ [] → Z.of_nat (length l) <= k →
            _index_at_pos (Some k) l = Some (Z.of_nat (length l) - 1))
  ∧ (∀ hit l, _index_at_pos hit l = None ↔ hit = None ∨ l = []).
Proof.
  assert (Hnz : ∀ l : list Z, l ≠ [] → (Z.of_nat (length l) =? 0) = false).
  { intros l Hl. apply Z.eqb_neq. destruct l; [done|]. simpl. lia. }
  split; [|split; [|split; [|split]]].
  - intros hit l idx. apply index_at_pos_in_range.
  - intros k l Hk. unfold _index_at_pos.
    rewrite Hnz by (intros ->; simpl in Hk; lia). f_equal. lia.
  - intros k l Hl Hk. unfold _index_at_pos. rewrite Hnz by done.
    assert (0 < Z.of_nat (length l)) by (destruct l; [done|simpl; lia]).
    f_equal. lia.
  - intros k l Hl Hk. unfold _index_at_pos. rewrite Hnz by done.
    assert (0 < Z.of_nat (length l)) by (destruct l; [done|simpl; lia]).
    f_equal. lia.
  - intros hit l. unfold _index_at_pos. destruct hit as [k|].
    + destruct l as [|z l]; [split; [by right|done]|].
      rewrite Hnz by done. split; [done|]. by intros [?|?].
    + split; [by left|done].
Qed.

(** ** The results overlay *)

(** X14. Once both sides carry a finish stamp and neither stamp is zero,
    the overlay is shown and its verdict is frozen: it is the same whenever
    the frame is drawn, the side with the strictly smaller
    [finish_time - start_time] wins, and equal durations tie. *)
Theorem overlay_verdict_frozen (g : Game) (fp fa now1 now2 : float) :
  finish_time (player g) = Some fp → finish_time (algo g) = Some fa →
  (fp =? 0)%float = false → (fa =? 0)%float = false →
  is_Some (results_overlay now1 g)
  ∧ results_overlay now1 g = results_overlay now2 g
  ∧ ((fp - start_time (player g) <? fa - start_time (algo g))%float = true →
     results_overlay now1 g = Some YouWin)
  ∧ ((fa - start_time (algo g) <? fp - start_time (player g))%float = true →
     results_overlay now1 g = Some QuickSortWins)
  ∧ ((fp - start_time (player g) =? fa - start_time (algo g))%float = true →
     results_overlay now1 g = Some ItsATie).
Proof.
  intros Hp Ha Hpz Haz.
  split; [|split; [|by apply verdict_by_durations]].
  - unfold results_overlay. rewrite Hp, Ha. by eexists.
  - unfold results_overlay, p_time, a_time, float_or. by rewrite Hp, Ha, Hpz, Haz.
Qed.

Lemma overlay_verdict_frozen_witness :
  finish_time (player race_4_vs_3_5) = Some 5%float ∧
  finish_time (algo race_4_vs_3_5) = Some 5.5%float ∧
  (5 =? 0)%float = false ∧ (5.5 =? 0)%float = false ∧
  is_Some (results_overlay 9 race_4_vs_3_5)
  ∧ results_overlay 9 race_4_vs_3_5 = results_overlay 60 race_4_vs_3_5
  ∧ ((5 - start_time (player race_4_vs_3_5) <? 5.5 - start_time (algo race_4_vs_3_5))%float
     = true → results_overlay 9 race_4_vs_3_5 = Some YouWin)
  ∧ ((5.5 - start_time (algo race_4_vs_3_5) <? 5 - start_time (player race_4_vs_3_5))%float
     = true → results_overlay 9 race_4_vs_3_5 = Some QuickSortWins)
  ∧ ((5 - start_time (player race_4_vs_3_5) =? 5.5 - start_time (algo race_4_vs_3_5))%float
     = true → results_overlay 9 race_4_vs_3_5 = Some ItsATie).
Proof.
  split; [reflexivity|]. split; [reflexivity|].
  split; [reflexivity|]. split; [reflexivity|].
  apply (overlay_verdict_frozen race_4_vs_3_5 5%float 5.5%float 9%float 60%float);
    reflexivity.
Defined.

(** ** Events *)

(** X15. A batch of events is handled one after the other: handling
    [evs1 ++ evs2] is handling [evs1] and then, unless that ended the loop,
    [evs2] from where it left off.  After QUIT, ESC or Q nothing in the
    batch is looked at any more, and the state is left as it was then. *)
Theorem handle_events_in_order :
  (∀ evs1 evs2 a,
     handle_events (evs1 ++ evs2) a
     = match handle_events evs1 a with
       | Ok (true, a1) => handle_events evs2 a1
       | r => r
       end)
  ∧ (∀ evs1 evs2 e a a1,
       handle_events evs1 a = Ok (true, a1) →
       e = QUIT ∨ e = KEYDOWN K_ESCAPE ∨ e = KEYDOWN K_q →
       handle_events (evs1 ++ e :: evs2) a = Ok (false, a1)).
Proof.
  assert (Happ : ∀ evs1 evs2 a,
            handle_events (evs1 ++ evs2) a
            = match handle_events evs1 a with
              | Ok (true, a1) => handle_events evs2 a1
              | r => r
              end).
  { induction evs1 as [|e evs1 IH]; intros evs2 a; [done|].
    simpl. destruct (handle_event e a) as [[[] a']| |]; [apply IH|done..]. }
  split; [exact Happ|].
  intros evs1 evs2 e a a1 Hrun He. rewrite Happ, Hrun.
  by destruct He as [->|[->| ->]].
Qed.

Lemma SIZES_lookup (key n : Z) :
  SIZES !! key = Some n →
  (key = K_1 ∧ n = 12) ∨ (key = K_2 ∧ n = 24) ∨ (key = K_3 ∧ n = 36).
Proof.
  unfold SIZES. rewrite !lookup_insert_Some, lookup_empty.
  intros [[<- <-]|[_ [[<- <-]|[_ [[<- <-]|[_ ?]]]]]]; auto. done.
Qed.

(** X16. Pressing 1, 2 or 3 restarts the race at 12, 24 or 36 bars: both
    sides get the same freshly made array of that many distinct values,
    nothing is selected, no finish time is set, the move counters are 0, the
    algorithm is not paused and its generator is a new one for that array. *)
Theorem size_key_restarts (a : App) (key n : Z) :
  SIZES !! key = Some n →
  (∀ k l, shuffle_at a k l ≡ₚ l) →
  ∃ a',
    handle_event (KEYDOWN key) a = Ok (true, a')
    ∧ size a' = n ∧ (n = 12 ∨ n = 24 ∨ n = 36)
    ∧ arr (player (game a')) = arr (algo (game a'))
    ∧ length (arr (player (game a'))) = Z.to_nat n
    ∧ NoDup (arr (player (game a')))
    ∧ finish_time (player (game a')) = None ∧ finish_time (algo (game a')) = None
    ∧ selected (player (game a')) = None
    ∧ moves (player (game a')) = 0
    ∧ paused_algo (game a') = false
    ∧ _current_step (game a') = None
    ∧ _gen (game a') = generator (arr (algo (game a'))).
Proof.
  intros Hkey Hperm.
  pose proof (SIZES_lookup key n Hkey) as Hcases.
  unfold handle_event. rewrite Hkey.
  assert (Hk : (key =? K_ESCAPE) || (key =? K_q) = false
               ∧ (key =? K_r) = false ∧ (key =? K_SPACE) = false).
  { by destruct Hcases as [[-> _]|[[-> _]|[-> _]]]. }
  destruct Hk as (-> & -> & ->).
  eexists. split; [reflexivity|].
  destruct (new_array_length_NoDup (shuffle_at a (shuffles a)) n (Hperm _))
    as (Hlen & Hnd).
  simpl. repeat split; try done.
  destruct Hcases as [[_ ->]|[[_ ->]|[_ ->]]]; auto.
Qed.

Lemma size_key_restarts_witness :
  SIZES !! K_1 = Some 12 ∧
  (∀ k l, shuffle_at app_20_10_30 k l ≡ₚ l) ∧
  ∃ a',
    handle_event (KEYDOWN K_1) app_20_10_30 = Ok (true, a')
    ∧ size a' = 12 ∧ (12 = 12 ∨ 12 = 24 ∨ 12 = 36)
    ∧ arr (player (game a')) = arr (algo (game a'))
    ∧ length (arr (player (game a'))) = Z.to_nat 12
    ∧ NoDup (arr (player (game a')))
    ∧ finish_time (player (game a')) = None ∧ finish_time (algo (game a')) = None
    ∧ selected (player (game a')) = None
    ∧ moves (player (game a')) = 0
    ∧ paused_algo (game a') = false
    ∧ _current_step (game a') = None
    ∧ _gen (game a') = generator (arr (algo (game a'))).
Proof.
  assert (H1 : SIZES !! K_1 = Some 12) by reflexivity.
  assert (H2 : ∀ k l, shuffle_at app_20_10_30 k l ≡ₚ l).
  { intros k l. apply reverse_Permutation. }
  split; [exact H1|]. split; [exact H2|].
  exact (size_key_restarts app_20_10_30 K_1 12 H1 H2).
Defined.

(** X17. Pressing SPACE twice leaves the program exactly as it was. *)
Theorem space_twice_is_identity (a : App) :
  handle_events [KEYDOWN K_SPACE; KEYDOWN K_SPACE] a = Ok (true, a).
Proof.
  assert (Hs : SIZES !! K_SPACE = None) by reflexivity.
  unfold handle_events, handle_event. rewrite Hs. simpl.
  destruct a as [g ? ? ?]. destruct g. unfold with_game, toggle_pause. simpl.
  by rewrite negb_involutive.
Qed.

(** ** The main loop *)

Lemma reset_app_player_done (a : App) : player_done_sorted (game (reset_app a)).
Proof. unfold player_done_sorted, reset_app, reset. cbn. by intros [? ?]. Qed.

Lemma handle_event_player_done (e : Event) (a a' : App) (b : bool) :
  handle_event e a = Ok (b, a') →
  player_done_sorted (game a) → player_done_sorted (game a').
Proof.
  unfold handle_event. destruct e as [|key|button hit|].
  - intros H. by assert (a' = a) as -> by congruence.
  - destruct ((key =? K_ESCAPE) || (key =? K_q)).
    { intros H. by assert (a' = a) as -> by congruence. }
    intros H Hok.
    set (a1 := if key =? K_r then reset_app a else a) in H.
    assert (H1 : player_done_sorted (game a1)).
    { subst a1. destruct (key =? K_r); [apply reset_app_player_done|done]. }
    clearbody a1.
    set (a2 := match SIZES !! key with
               | Some n => reset_app (with_size n a1)
               | None => a1
               end) in H.
    assert (H2 : player_done_sorted (game a2)).
    { subst a2. destruct (SIZES !! key); [apply reset_app_player_done|done]. }
    clearbody a2.
    assert (a' = if key =? K_SPACE then with_game (toggle_pause (game a2)) a2 else a2)
      as -> by congruence.
    by destruct (key =? K_SPACE).
  - destruct (button =? 1).
    2: { intros H. by assert (a' = a) as -> by congruence. }
    destruct (_handle_click hit (game a)) as [g| |] eqn:Hclick; [|done|done].
    intros H. assert (a' = with_game g a) as -> by congruence.
    apply (handle_click_player_done hit (game a) g Hclick).
  - intros H. by assert (a' = a) as -> by congruence.
Qed.

Lemma handle_events_player_done (events : list Event) :
  ∀ a a' b,
    handle_events events a = Ok (b, a') →
    player_done_sorted (game a) → player_done_sorted (game a').
Proof.
  induction events as [|e events IH]; intros a a' b; simpl.
  - intros H. by assert (a' = a) as -> by congruence.
  - destruct (handle_event e a) as [[[] a1]| |] eqn:He; [| |done|done].
    + intros Hrun Hok. apply (IH a1 a' b Hrun).
      by apply (handle_event_player_done e a a1 true).
    + intros H. assert (a' = a1) as -> by congruence.
      by apply (handle_event_player_done e a a1 false).
Qed.

(** X18. At the end of every turn of the main loop the player's finish
    time is set exactly if the player's array is sorted: a sorted array never
    stays unstamped past the frame, and a stamp is never on an unsorted
    array. *)
Theorem frame_finished_iff_sorted (events : list Event) (dt : float) (a a' : App) :
  player_done_sorted (game a) →
  frame events dt a = Ok (true, a') →
  (is_Some (finish_time (player (game a')))
   ↔ is_sorted (arr (player (game a'))) = true).
Proof.
  intros Hok. unfold frame.
  destruct (handle_events events a) as [[[] a1]| |] eqn:Hev; [|done..].
  pose proof (handle_events_player_done events a a1 true Hev Hok) as Hok1.
  clear Hev Hok. intros H.
  assert (a' = with_game (snd (draw (check_player_finished
                                       (update_algo dt (game a1))))) a1)
    as -> by congruence.
  clear H. cbn [game with_game].
  destruct (draw_frame (check_player_finished (update_algo dt (game a1))))
    as (-> & _).
  assert (Hp : player (update_algo dt (game a1)) = player (game a1)).
  { unfold update_algo.
    destruct (is_not_None (finish_time (algo (game a1))) || paused_algo (game a1));
      [done|]. by rewrite drain_player. }
  unfold check_player_finished. rewrite Hp.
  destruct (finish_time (player (game a1))) as [t|] eqn:Hfin; simpl.
  - rewrite Hp, Hfin. split; [intros _|done]. apply Hok1. by rewrite Hfin.
  - destruct (is_sorted (arr (player (game a1)))) eqn:Hs; simpl.
    + rewrite Hp, Hs. split; [done|by eexists].
    + rewrite Hp, Hfin, Hs. split; [by intros [? ?]|done].
Qed.

Lemma frame_finished_iff_sorted_witness :
  player_done_sorted (game app_20_10_30) ∧
  ∃ a',
    frame [MOUSEBUTTONDOWN 1 (Some 0); KEYDOWN K_SPACE; MOUSEBUTTONDOWN 1 (Some 1)]
      0.015625 app_20_10_30 = Ok (true, a')
    ∧ (is_Some (finish_time (player (game a')))
       ↔ is_sorted (arr (player (game a'))) = true).
Proof.
  assert (H0 : player_done_sorted (game app_20_10_30)).
  { unfold player_done_sorted. cbn. by intros [? ?]. }
  split; [exact H0|].
  destruct (frame [MOUSEBUTTONDOWN 1 (Some 0); KEYDOWN K_SPACE;
                   MOUSEBUTTONDOWN 1 (Some 1)] 0.015625 app_20_10_30)
    as [[[] a']| |] eqn:H;
    [|exfalso; vm_compute in H; discriminate H..].
  exists a'. split; [reflexivity|].
  exact (frame_finished_iff_sorted _ _ _ _ H0 H).
Defined.

Lemma drain_gen_length (gen : list Step) :
  ∀ g, _gen g = gen → (length (_gen (drain gen g)) <= length gen)%nat.
Proof.
  induction gen as [|step gen IH]; intros g Hgen; simpl.
  - destruct (step_interval <=? _algo_step_timer g)%float.
    + destruct (is_None (finish_time (algo g))); simpl; rewrite Hgen; simpl; lia.
    + rewrite Hgen. simpl. lia.
  - destruct (step_interval <=? _algo_step_timer g)%float.
    + match goal with |- context [drain gen ?g1] =>
        assert (H1 : (length (_gen (drain gen g1)) <= length gen)%nat) end.
      { apply IH. by destruct (bool_decide (action step = "done") && _). }
      lia.
    + rewrite Hgen. simpl. lia.
Qed.

(** X19. The algorithm cannot stall: while it is neither finished nor
    paused and Steps are left, a tick that brings the accumulator up to the
    step interval takes at least one Step from the generator. *)
Theorem tick_takes_a_step (dt : float) (g : Game) :
  finish_time (algo g) = None →
  paused_algo g = false →
  _gen g ≠ [] →
  (step_interval <=? _algo_step_timer g + dt)%float = true →
  (length (_gen (update_algo dt g)) < length (_gen g))%nat.
Proof.
  intros Hfin Hp Hgen Hle. unfold update_algo. rewrite Hfin, Hp. simpl.
  destruct (_gen g) as [|step gen]; [done|]. simpl. rewrite Hle.
  match goal with |- context [drain gen ?g1] =>
    assert (H1 : (length (_gen (drain gen g1)) <= length gen)%nat) end.
  { apply drain_gen_length. by destruct (bool_decide (action step = "done") && _). }
  lia.
Qed.

Lemma tick_takes_a_step_witness :
  finish_time (algo (init second_clock shuffled12)) = None ∧
  paused_algo (init second_clock shuffled12) = false ∧
  _gen (init second_clock shuffled12) ≠ [] ∧
  (step_interval <=? _algo_step_timer (init second_clock shuffled12) + 0.0625)%float
  = true ∧
  (length (_gen (update_algo 0.0625 (init second_clock shuffled12)))
   < length (_gen (init second_clock shuffled12)))%nat.
Proof.
  assert (Hgen : _gen (init second_clock shuffled12) ≠ []).
  { intros H. apply (f_equal length) in H. vm_compute in H. discriminate H. }
  split; [reflexivity|]. split; [reflexivity|]. split; [exact Hgen|].
  split; [reflexivity|].
  apply (tick_takes_a_step 0.0625%float (init second_clock shuffled12));
    [reflexivity|reflexivity|exact Hgen|reflexivity].
Defined.

(** ** Bar colours *)

Ltac solve_colors :=
  unfold bar_color, eq_index, is_not_None, is_None; cbn [i j pivot_index action negb andb];
  rewrite ?bool_decide_eq_false_2 by done;
  rewrite ?bool_decide_eq_true_2 by done;
  cbn [negb andb];
  repeat match goal with
         | |- context [?x =? ?y] => destruct (Z.eqb_spec x y); try lia
         end;
  cbn [negb andb];
  unfold RED, AMBER, BLUE, PURPLE, GREY_BAR;
  repeat split; intros; try done; try congruence; try lia;
  repeat match goal with
         | H : _ ∧ _ |- _ => destruct H
         | H : Some _ = Some _ |- _ => injection H as H
         end;
  try congruence; try lia.

Lemma inner_step_colors (lo hi : Z) (s : Step) (idx : Z) :
  inner_step lo hi s →
  let c := bar_color RED (Some s) None idx in
  c ≠ BLUE
  ∧ (c = RED ↔ j s = Some idx)
  ∧ (c = PURPLE ↔ i s = Some idx)
  ∧ (c = AMBER ↔ pivot_index s = Some idx ∧ action s ≠ "partition")
  ∧ (c = GREY_BAR
     ↔ i s ≠ Some idx ∧ j s ≠ Some idx ∧ pivot_index s ≠ Some idx).
Proof.
  intros Hs c. subst c. destruct Hs; solve_colors.
Qed.

(** X20. How the algorithm panel colours its bars on the Steps of a run:
    the bar at [j] is red, the bar at [i] purple, the pivot bar amber unless
    the Step is a "partition" Step (where [j] is the pivot and the bar is
    red); every other bar is grey, and no bar is ever blue. *)
Theorem algo_bar_colors (data : list Z) :
  ∃ steps,
    quicksort_steps data = Ok steps
    ∧ Forall (λ s, ∀ idx,
        let c := bar_color RED (Some s) None idx in
        c ≠ BLUE
        ∧ (c = RED ↔ j s = Some idx)
        ∧ (c = PURPLE ↔ i s = Some idx)
        ∧ (c = AMBER ↔ pivot_index s = Some idx ∧ action s ≠ "partition")
        ∧ (c = GREY_BAR
           ↔ i s ≠ Some idx ∧ j s ≠ Some idx ∧ pivot_index s ≠ Some idx)) steps.
Proof.
  destruct (quicksort_steps_spec data) as (ss & sorted & Hrun & _ & _ & Hin & _).
  eexists. split; [exact Hrun|].
  apply Forall_app. split.
  - eapply Forall_impl; [exact Hin|].
    intros s Hs idx. by apply (inner_step_colors 0 (Z.of_nat (length data) - 1)).
  - constructor; [|constructor]. intros idx. solve_colors.
Qed.
